(** * pstd: traversal combinators and text helpers of [pstd.hpp]

    A shallow embedding of the container combinators [each], [until],
    [remove], [find] and [pop], and of the text helper [replace] with its
    caller [type_name], followed by the properties proved about them.

    Conventions of the embedding.
    - A container is the list of its elements in iteration order.  An
      iterator is a position, an integer: [begin] is 0, [end_] is the size,
      [++] and [--] add and subtract one.  Position arithmetic is never
      clamped: stepping back from [begin] yields -1, as it does for the
      pointer-like iterators of the standard sequence containers.
    - A parameter taken by reference lives in the caller's environment
      [env]; a parameter taken by value is an ordinary argument.  Callbacks
      are [std::function] objects: they may capture anything the caller
      owns, so they transform the whole environment.
    - Loops written with [iter != cont.end()] carry a fuel argument; the
      theorems show which fuel is enough.  *)

From Stdlib Require Import Ascii String List ZArith Lia Bool.
Import ListNotations.

Local Open Scope Z_scope.

(* ================================================================= *)
(** ** Outcomes and environments *)

(** What running a loop for a bounded number of iterations gives. *)
Inductive outcome (R : Type) : Type :=
| Done (r : R)      (* the function returned [r] *)
| Undefined         (* [*iter] at a position that holds no element *)
| OutOfFuel.        (* the loop was still running when the fuel ran out *)

Arguments Done {R} r.
Arguments Undefined {R}.
Arguments OutOfFuel {R}.

(** The caller's side of a call: the container handed over by reference
    and whatever else the callbacks have captured. *)
Record env (A U : Type) : Type := Env { store : list A; user : U }.

Arguments Env {A U} store user.
Arguments store {A U} e.
Arguments user {A U} e.

Definition set_store {A U} (cont : list A) (e : env A U) : env A U :=
  Env cont (user e).

Definition set_user {A U} (u : U) (e : env A U) : env A U :=
  Env (store e) u.

(* ================================================================= *)
(** ** Machine integers *)

(** [int] is 32 bits wide; converting a wider integer to it keeps the value
    modulo 2^32. *)
Definition to_int (z : Z) : Z := (z + 2 ^ 31) mod 2 ^ 32 - 2 ^ 31.

(** [size_t] is 64 bits wide and unsigned. *)
Definition to_size_t (z : Z) : Z := z mod 2 ^ 64.

(** [EOF] from <cstdio>, an [int]. *)
Definition EOF : Z := -1.

(** [std::string::npos]. *)
Definition npos : Z := 2 ^ 64 - 1.

(* ================================================================= *)
(** ** Element comparison *)

(** The value overload of [remove] compares elements with the element
    type's own [operator!=]. *)
Class Comparable (A : Type) : Type := {
  differs : A -> A -> bool;
  differs_false : forall x y : A, differs x y = false <-> x = y
}.

#[export, refine] Instance Comparable_Z : Comparable Z :=
  {| differs := fun x y => negb (Z.eqb x y) |}.
Proof.
  intros x y. rewrite negb_false_iff. apply Z.eqb_eq.
Defined.

(* ================================================================= *)
(** ** Iterators *)

Definition iterator : Type := Z.

(** The iterator operations a loop performs, recorded with the position
    they are applied to and the size of the container at that moment. *)
Inductive access : Type := Deref | Incr | Decr | Erase.

Record event : Type := Ev { what : access; pos : iterator; size_then : nat }.

(** An operation is within the container's range when it reads, erases or
    steps forward from a position that holds an element, or steps back from
    a position that has a predecessor. *)
Definition in_bounds (ev : event) : bool :=
  match what ev with
  | Deref | Incr | Erase =>
      (0 <=? pos ev) && (pos ev <? Z.of_nat (size_then ev))
  | Decr =>
      (0 <? pos ev) && (pos ev <=? Z.of_nat (size_then ev))
  end.

Section Iterators.
Context {A : Type}.

Definition size (cont : list A) : nat := length cont.

Definition begin (cont : list A) : iterator := 0.

Definition end_ (cont : list A) : iterator := Z.of_nat (size cont).

(** [*iter] *)
Definition deref (cont : list A) (iter : iterator) : option A :=
  if iter <? 0 then None else nth_error cont (Z.to_nat iter).

(** [++iter] and [--iter] *)
Definition next (iter : iterator) : iterator := iter + 1.
Definition prev (iter : iterator) : iterator := iter - 1.

(** [std::distance(first, last)] *)
Definition distance (first last : iterator) : Z := last - first.

(** [cont.erase(iter)]: the container without the element at [iter], and
    the position of the element that followed it. *)
Definition erase (cont : list A) (iter : iterator) : list A * iterator :=
  (firstn (Z.to_nat iter) cont ++ skipn (S (Z.to_nat iter)) cont, iter).

(** [cont.front()] and [cont.pop_front()] *)
Definition front (cont : list A) : option A := hd_error cont.
Definition pop_front (cont : list A) : list A := tl cont.
End Iterators.

(* ================================================================= *)
(** ** The combinators *)

Section Combinators.
Context {A U : Type}.

Local Abbreviation env := (env A U).

(** [each(cont, func)], one-argument visitor.  [cont] is a copy. *)
Fixpoint each_loop (fuel : nat) (cont : list A) (func : A -> env -> env)
    (iter : iterator) (e : env) : outcome env :=
  match fuel with
  | O => OutOfFuel
  | S fuel' =>
      if iter =? end_ cont then Done e
      else match deref cont iter with
           | None => Undefined
           | Some a => each_loop fuel' cont func (next iter) (func a e)
           end
  end.

Definition each (fuel : nat) (cont : list A) (func : A -> env -> env)
    (e : env) : outcome env :=
  each_loop fuel cont func (begin cont) e.

(** [each(cont, func)], visitor taking the element and an [int]. *)
Fixpoint each_indexed_loop (fuel : nat) (cont : list A)
    (func : A -> Z -> env -> env) (first iter : iterator) (e : env)
    : outcome env :=
  match fuel with
  | O => OutOfFuel
  | S fuel' =>
      if iter =? end_ cont then Done e
      else
        let i := distance first iter in
        match deref cont iter with
        | None => Undefined
        | Some a =>
            each_indexed_loop fuel' cont func first (next iter)
              (func a (to_int i) e)
        end
  end.

Definition each_indexed (fuel : nat) (cont : list A)
    (func : A -> Z -> env -> env) (e : env) : outcome env :=
  let first := begin cont in
  each_indexed_loop fuel cont func first first e.

(** [until(cont, func)].  [cont] is a copy. *)
Fixpoint until_loop (fuel : nat) (cont : list A)
    (func : A -> env -> bool * env) (iter : iterator) (e : env)
    : outcome (bool * env) :=
  match fuel with
  | O => OutOfFuel
  | S fuel' =>
      if iter =? end_ cont then Done (false, e)
      else match deref cont iter with
           | None => Undefined
           | Some a =>
               let (i, e1) := func a e in
               if i then Done (true, e1)
               else until_loop fuel' cont func (next iter) e1
           end
  end.

Definition until (fuel : nat) (cont : list A)
    (func : A -> env -> bool * env) (e : env) : outcome (bool * env) :=
  until_loop fuel cont func (begin cont) e.

(** The loop shared by the two [remove] overloads, which differ only in
    the test that lets an element stay.  The container is the caller's:
    it is read from and written to the environment.  The third component
    accumulates the iterator operations performed. *)
Fixpoint remove_loop (fuel : nat) (stays : A -> env -> bool * env)
    (iter : iterator) (e : env) (log : list event)
    : outcome (env * list event) :=
  match fuel with
  | O => OutOfFuel
  | S fuel' =>
      if iter =? end_ (store e) then Done (e, log)
      else match deref (store e) iter with
           | None => Undefined
           | Some a =>
               let log1 := log ++ [Ev Deref iter (size (store e))] in
               let (keep, e1) := stays a e in
               if keep then
                 (* continue; ++iter *)
                 remove_loop fuel' stays (next iter) e1
                   (log1 ++ [Ev Incr iter (size (store e1))])
               else
                 (* iter = --cont.erase(iter); ++iter *)
                 let (cont', after) := erase (store e1) iter in
                 let e2 := set_store cont' e1 in
                 let iter' := prev after in
                 remove_loop fuel' stays (next iter') e2
                   (log1 ++ [Ev Erase iter (size (store e1));
                             Ev Decr after (size cont');
                             Ev Incr iter' (size cont')])
           end
  end.

(** [remove(cont, find)]: [if ( *iter != find) continue;] *)
Definition remove `{Comparable A} (fuel : nat) (find : A) (e : env)
    : outcome (env * list event) :=
  remove_loop fuel (fun a e0 => (differs a find, e0)) (begin (store e)) e [].

(** [remove(cont, func)]: [if (!func( *iter)) continue;] *)
Definition remove_if (fuel : nat) (func : A -> env -> bool * env) (e : env)
    : outcome (env * list event) :=
  remove_loop fuel
    (fun a e0 => let (b, e1) := func a e0 in (negb b, e1))
    (begin (store e)) e [].

(** [find(cont, func)].  The container is the caller's. *)
Fixpoint find_loop (fuel : nat) (func : A -> env -> bool * env)
    (iter : iterator) (e : env) : outcome (option A * env) :=
  match fuel with
  | O => OutOfFuel
  | S fuel' =>
      if iter =? end_ (store e) then Done (None, e)
      else match deref (store e) iter with
           | None => Undefined
           | Some a =>
               let (b, e1) := func a e in
               if negb b then find_loop fuel' func (next iter) e1
               else match deref (store e1) iter with
                    | None => Undefined
                    | Some r => Done (Some r, e1)
                    end
           end
  end.

Definition find (fuel : nat) (func : A -> env -> bool * env) (e : env)
    : outcome (option A * env) :=
  find_loop fuel func (begin (store e)) e.

(** [pop(cont)].  The container is the caller's. *)
Definition pop (e : env) : option A * env :=
  if (size (store e) =? 0)%nat then (None, e)
  else match front (store e) with
       | None => (None, e)
       | Some out => (Some out, set_store (pop_front (store e)) e)
       end.

(** *** Callbacks used in the statements *)

(** A visitor whose only effect is [g] on the state it captured. *)
Definition visitor (g : A -> U -> U) : A -> env -> env :=
  fun a e => set_user (g a (user e)) e.

Definition visitor_indexed (g : A -> Z -> U -> U) : A -> Z -> env -> env :=
  fun a i e => set_user (g a i (user e)) e.

(** A predicate that answers [p] and whose only effect is [g] on the
    state it captured. *)
Definition predicate (p : A -> bool) (g : A -> U -> U)
    : A -> env -> bool * env :=
  fun a e => (p a, set_user (g a (user e)) e).

(** A callback leaves the caller's container alone. *)
Definition visitor_frames (func : A -> env -> env) : Prop :=
  forall a e, store (func a e) = store e.

Definition visitor_indexed_frames (func : A -> Z -> env -> env) : Prop :=
  forall a i e, store (func a i e) = store e.

Definition predicate_frames (func : A -> env -> bool * env) : Prop :=
  forall a e, store (snd (func a e)) = store e.
End Combinators.

(** Where a loop's result leaves the caller's container, if it returned. *)
Definition final_store {A U} (r : outcome (env A U * list event))
    : option (list A) :=
  match r with
  | Done (e, _) => Some (store e)
  | _ => None
  end.

(** A callback effect that records the element it was called with. *)
Definition record {A} : A -> list A -> list A := fun a calls => calls ++ [a].

Definition record_indexed {A} : A -> Z -> list (A * Z) -> list (A * Z) :=
  fun a i calls => calls ++ [(a, i)].

(* ================================================================= *)
(** ** Vocabulary of the statements *)

(** The positions [from], [from + 1], ... ([n] of them). *)
Fixpoint positions (from : Z) (n : nat) : list Z :=
  match n with
  | O => []
  | S n' => from :: positions (from + 1) n'
  end.

(** A container of 2^31 + 1 elements, one more than an [int] can number. *)
Definition beyond_int : nat := Z.to_nat (2 ^ 31 + 1).

Definition huge : list unit := repeat tt beyond_int.

(** [a], at position [i] of [c], is the first element [p] accepts. *)
Definition first_at {A} (p : A -> bool) (c : list A) (i : nat) (a : A)
    : Prop :=
  nth_error c i = Some a /\ p a = true
  /\ forall j b, (j < i)%nat -> nth_error c j = Some b -> p b = false.

(** [p] accepts no element of [c]. *)
Definition none_of {A} (p : A -> bool) (c : list A) : Prop :=
  forall a, In a c -> p a = false.

(** The state a callback has captured, after it has been called on the
    elements of [calls] in turn. *)
Definition after_calls {A U} (g : A -> U -> U) (calls : list A) (u : U) : U :=
  fold_left (fun u' a => g a u') calls u.

(** Every operation of a log stayed within the container's range. *)
Definition all_in_bounds (log : list event) : bool := forallb in_bounds log.

(** The number of times a log reads an element. *)
Definition is_deref (ev : event) : bool :=
  match what ev with Deref => true | _ => false end.

Definition reads (log : list event) : nat := length (filter is_deref log).

(* ================================================================= *)
(** ** Text helpers *)

Module Text.

(** The characters of a [std::string] or [std::string_view]. *)
Definition chars : Type := list ascii.

Definition lit (s : string) : chars := list_ascii_of_string s.

(** Does [needle] occur at the very start of [text]? *)
Fixpoint starts_with (needle text : chars) : bool :=
  match needle, text with
  | [], _ => true
  | _ :: _, [] => false
  | c :: needle', d :: text' => Ascii.eqb c d && starts_with needle' text'
  end.

(** [text.find(needle)] searching from position [at_]: the lowest position
    at which [needle] occurs, [npos] when there is none. *)
Fixpoint find_from (at_ : Z) (text needle : chars) : Z :=
  if starts_with needle text then at_
  else match text with
       | [] => npos
       | _ :: text' => find_from (at_ + 1) text' needle
       end.

Definition string_find (text needle : chars) : Z := find_from 0 text needle.

(** [text.replace(at_, count, to)]: the characters from [at_] on, at most
    [count] of them, give way to [to]; a position past the end throws. *)
Definition string_replace (text : chars) (at_ count : Z) (to : chars)
    : option chars :=
  if Z.of_nat (length text) <? at_ then None
  else Some (firstn (Z.to_nat at_) text ++ to
             ++ skipn (Z.to_nat at_ + Z.to_nat count) text).

(** [replace(text, from, to)].  [i] is a [size_t], so [EOF] is converted to
    [size_t] before the two are compared.  The result is the new content
    of [text], or nothing when the call threw. *)
Definition replace (text from to : chars) : option chars :=
  let i := string_find text from in
  if i =? to_size_t EOF then Some text
  else string_replace text i (Z.of_nat (length from)) to.

(** [contains(text, needle)] *)
Definition contains (text needle : chars) : bool :=
  negb (string_find text needle =? to_size_t EOF).

(** What [type_name<T>] learns about [T] from the compiler and the ABI. *)
Inductive ref_kind : Type := NotRef | LvalueRef | RvalueRef.

Record type_facts : Type := TypeFacts {
  mangled : chars;             (* typeid(type).name() *)
  demangled : option chars;    (* abi::__cxa_demangle, when it succeeds *)
  is_const : bool;
  is_volatile : bool;
  reference : ref_kind
}.

(** The name before the final [replace]. *)
Definition decorated (T : type_facts) : chars :=
  let out := match demangled T with
             | Some own => own
             | None => mangled T
             end in
  let out := if is_const T then out ++ lit " const" else out in
  let out := if is_volatile T then out ++ lit " volatile" else out in
  match reference T with
  | LvalueRef => out ++ lit "&"
  | RvalueRef => out ++ lit "&&"
  | NotRef => out
  end.

(** [type_name<T>()] *)
Definition type_name (T : type_facts) : option chars :=
  replace (decorated T) (lit "> >") (lit ">>").

(** [needle] occurs in [text] at position [n]. *)
Definition occurs_at (needle text : chars) (n : nat) : Prop :=
  exists pre post, text = pre ++ needle ++ post /\ length pre = n.

(** A class template instantiated three levels deep, as the demangler
    prints it. *)
Definition nested : type_facts :=
  TypeFacts (lit "1AI1BI1CIiEEE") (Some (lit "A<B<C<int> > >"))
    false false NotRef.

(** [text.empty()] *)
Definition empty (text : chars) : bool :=
  match text with [] => true | _ :: _ => false end.

(** [text.substr(at_, count)]: at most [count] characters from [at_] on; a
    position past the end throws. *)
Definition string_substr (text : chars) (at_ count : Z) : option chars :=
  if Z.of_nat (length text) <? at_ then None
  else Some (firstn (Z.to_nat count) (skipn (Z.to_nat at_) text)).

(** [text.erase(at_, count)]: the text without the characters from [at_]
    on, at most [count] of them; a position past the end throws. *)
Definition string_erase (text : chars) (at_ count : Z) : option chars :=
  if Z.of_nat (length text) <? at_ then None
  else Some (firstn (Z.to_nat at_) text
             ++ skipn (Z.to_nat at_ + Z.to_nat count) text).

(** [split(text, d, func)].  [text] is a copy; [func] acts on what it has
    captured.  The loop recomputes [text.find(d)] before every test of
    [i != EOF]; [i + d.size()] is [size_t] arithmetic.  The result is the
    state [func] is left in, or nothing when a string operation threw. *)
Fixpoint split {U} (fuel : nat) (text d : chars) (func : chars -> U -> U)
    (u : U) : outcome (option U) :=
  match fuel with
  | O => OutOfFuel
  | S fuel' =>
      let i := string_find text d in
      if i =? to_size_t EOF then
        Done (Some (if negb (empty text) then func text u else u))
      else
        match string_substr text 0 i with
        | None => Done None
        | Some piece =>
            let u1 := func piece u in
            match string_erase text 0
                    (to_size_t (i + Z.of_nat (length d))) with
            | None => Done None
            | Some text' => split fuel' text' d func u1
            end
        end
  end.

(** [boost::algorithm::join(cont, delm)]: the elements of [cont] in order,
    with [delm] between each two neighbours. *)
Fixpoint join (cont : list chars) (delm : chars) : chars :=
  match cont with
  | [] => []
  | piece :: rest =>
      match rest with
      | [] => piece
      | _ :: _ => piece ++ delm ++ join rest delm
      end
  end.

(** [std::isspace] in the "C" locale: space, and tab to carriage return. *)
Definition isspace_C (ch : ascii) : bool :=
  let n := nat_of_ascii ch in
  ((n =? 32) || ((9 <=? n) && (n <=? 13)))%nat.

(** [std::find_if(first, last, p)] on a range given in the order it is
    visited: the number of steps from [first] to the first element [p]
    accepts, the length of the range when there is none. *)
Fixpoint find_if {A} (p : A -> bool) (range : list A) : nat :=
  match range with
  | [] => 0
  | a :: range' => if p a then 0 else S (find_if p range')
  end.

(** [str.erase(first, last)] *)
Definition erase_range (str : chars) (first last : iterator) : chars :=
  firstn (Z.to_nat first) str ++ skipn (Z.to_nat last) str.

(** [rtrim(str)], with [std::isspace] as a parameter: it depends on the
    locale.  The search runs over the reversed string; [iter.base()] is
    as many positions before the end as the search took steps. *)
Definition rtrim (isspace : ascii -> bool) (str : chars) : chars :=
  if empty str then str
  else
    let steps := find_if (fun ch => negb (isspace ch)) (rev str) in
    let base := end_ str - Z.of_nat steps in
    erase_range str base (end_ str).

(** [needle] occurs somewhere in [text]. *)
Definition occurs (needle text : chars) : Prop :=
  exists n, occurs_at needle text n.

(** In [piece] followed by [d], [d] is not met before the end of [piece]. *)
Definition ends_at_delimiter (d piece : chars) : Prop :=
  forall m, occurs_at d (piece ++ d) m -> (length piece <= m)%nat.

(** [str] is empty or its last character is not whitespace. *)
Definition trimmed (isspace : ascii -> bool) (str : chars) : Prop :=
  forall keep ch, str = keep ++ [ch] -> isspace ch = false.

End Text.

(* ================================================================= *)
(** ** Positions inside a container *)

Section Position_facts.
Context {A : Type}.
Implicit Types (pre rest cont : list A) (a : A).

Lemma at_end_nil pre :
  (Z.of_nat (length pre) =? end_ (pre ++ [])) = true.
Proof.
  unfold end_, size. rewrite app_nil_r. apply Z.eqb_refl.
Qed.

Lemma at_end_cons pre a rest :
  (Z.of_nat (length pre) =? end_ (pre ++ a :: rest)) = false.
Proof.
  unfold end_, size. rewrite length_app. simpl. apply Z.eqb_neq. lia.
Qed.

Lemma deref_here pre a rest :
  deref (pre ++ a :: rest) (Z.of_nat (length pre)) = Some a.
Proof.
  unfold deref.
  destruct (Z.of_nat (length pre) <? 0) eqn:E.
  - apply Z.ltb_lt in E. lia.
  - rewrite Nat2Z.id, nth_error_app2 by lia.
    now rewrite Nat.sub_diag.
Qed.

Lemma next_here pre a :
  next (Z.of_nat (length pre)) = Z.of_nat (length (pre ++ [a])).
Proof.
  unfold next. rewrite length_app. simpl. lia.
Qed.

Lemma erase_here pre a rest :
  erase (pre ++ a :: rest) (Z.of_nat (length pre))
  = (pre ++ rest, Z.of_nat (length pre)).
Proof.
  unfold erase. rewrite Nat2Z.id. f_equal.
  rewrite firstn_app, firstn_all, Nat.sub_diag, firstn_O, app_nil_r.
  f_equal.
  rewrite skipn_app, skipn_all2 by lia.
  replace (S (length pre) - length pre)%nat with 1%nat by lia.
  reflexivity.
Qed.

Lemma snoc_cons pre a rest : pre ++ a :: rest = (pre ++ [a]) ++ rest.
Proof. now rewrite <- app_assoc. Qed.

Lemma positions_length from n : length (positions from n) = n.
Proof.
  revert from. induction n as [|n IH]; intros from; simpl; congruence.
Qed.

End Position_facts.

(** One iteration of a loop standing at the end of [pre]. *)
Ltac at_position :=
  rewrite ?at_end_nil, ?at_end_cons, ?deref_here, ?erase_here.

(* ================================================================= *)
(** ** [each] *)

Section Each_facts.
Context {A U : Type}.
Implicit Types (pre rest cont : list A) (e : env A U).

(** The visitor is applied to the elements from the current position to
    the end, each in turn. *)
Lemma each_loop_runs (func : A -> env A U -> env A U) rest :
  forall pre fuel e,
    (length rest < fuel)%nat ->
    each_loop fuel (pre ++ rest) func (Z.of_nat (length pre)) e
    = Done (fold_left (fun e' a => func a e') rest e).
Proof.
  induction rest as [|a rest IH]; intros pre fuel e Hfuel;
    (destruct fuel as [|fuel]; [simpl in Hfuel; lia|]); simpl.
  - now at_position.
  - at_position. rewrite (next_here pre a), snoc_cons.
    apply IH. simpl in Hfuel. lia.
Qed.

Lemma each_runs (func : A -> env A U -> env A U) cont fuel e :
  (length cont < fuel)%nat ->
  each fuel cont func e = Done (fold_left (fun e' a => func a e') cont e).
Proof.
  intros Hfuel. unfold each, begin.
  apply (each_loop_runs func cont [] fuel e Hfuel).
Qed.

Lemma each_indexed_loop_runs (func : A -> Z -> env A U -> env A U) rest :
  forall pre fuel e,
    (length rest < fuel)%nat ->
    each_indexed_loop fuel (pre ++ rest) func 0 (Z.of_nat (length pre)) e
    = Done (fold_left (fun e' ai => func (fst ai) (to_int (snd ai)) e')
              (combine rest (positions (Z.of_nat (length pre)) (length rest)))
              e).
Proof.
  induction rest as [|a rest IH]; intros pre fuel e Hfuel;
    (destruct fuel as [|fuel]; [simpl in Hfuel; lia|]); simpl.
  - now at_position.
  - at_position. rewrite (next_here pre a), snoc_cons.
    rewrite IH by (simpl in Hfuel; lia).
    rewrite <- (next_here pre a). unfold distance, next.
    now rewrite Z.sub_0_r.
Qed.

Lemma each_indexed_runs (func : A -> Z -> env A U -> env A U) cont fuel e :
  (length cont < fuel)%nat ->
  each_indexed fuel cont func e
  = Done (fold_left (fun e' ai => func (fst ai) (to_int (snd ai)) e')
            (combine cont (positions 0 (length cont))) e).
Proof.
  intros Hfuel. unfold each_indexed, begin.
  apply (each_indexed_loop_runs func cont [] fuel e Hfuel).
Qed.
End Each_facts.

Lemma fold_record {A} (cont : list A) : forall e : env A (list A),
  fold_left (fun e' a => visitor record a e') cont e
  = set_user (user e ++ cont) e.
Proof.
  induction cont as [|a cont IH]; intros e; simpl.
  - unfold set_user. rewrite app_nil_r. now destruct e.
  - rewrite IH. unfold visitor, record, set_user. simpl.
    now rewrite <- app_assoc.
Qed.

Lemma fold_record_indexed {A} (f : Z -> Z) (l : list (A * Z)) :
  forall e : env A (list (A * Z)),
  fold_left (fun e' ai =>
               visitor_indexed record_indexed (fst ai) (f (snd ai)) e') l e
  = set_user (user e ++ map (fun ai => (fst ai, f (snd ai))) l) e.
Proof.
  induction l as [|[a i] l IH]; intros e; simpl.
  - unfold set_user. rewrite app_nil_r. now destruct e.
  - rewrite IH. unfold visitor_indexed, record_indexed, set_user. simpl.
    now rewrite <- app_assoc.
Qed.

Lemma to_int_small z : - 2 ^ 31 <= z < 2 ^ 31 -> to_int z = z.
Proof.
  intros Hz. unfold to_int. rewrite Z.mod_small; lia.
Qed.

Lemma map_to_int_positions {A} (cont : list A) : forall from,
  0 <= from ->
  from + Z.of_nat (length cont) <= 2 ^ 31 ->
  map (fun ai : A * Z => (fst ai, to_int (snd ai)))
      (combine cont (positions from (length cont)))
  = combine cont (positions from (length cont)).
Proof.
  induction cont as [|a cont IH]; intros from H0 Hlen; simpl; [reflexivity|].
  simpl in Hlen. rewrite to_int_small by lia.
  f_equal. apply IH; lia.
Qed.

(** What the indexed visitor has recorded when [each] returns, for a
    container of any size. *)
Lemma each_indexed_records {A} (cont : list A) fuel
    (e : env A (list (A * Z))) :
  (length cont < fuel)%nat ->
  each_indexed fuel cont (visitor_indexed record_indexed) e
  = Done (set_user
            (user e ++ map (fun ai => (fst ai, to_int (snd ai)))
                           (combine cont (positions 0 (length cont)))) e).
Proof.
  intros Hfuel. rewrite each_indexed_runs by exact Hfuel.
  now rewrite (fold_record_indexed to_int).
Qed.

Lemma Done_inj {R} (r r' : R) : Done r = Done r' -> r = r'.
Proof. intros H. now injection H. Qed.

Lemma nth_error_with_positions {A} (cont : list A) : forall from k a,
  nth_error cont k = Some a ->
  nth_error (combine cont (positions from (length cont))) k
  = Some (a, from + Z.of_nat k).
Proof.
  induction cont as [|b cont IH]; intros from k a Hk.
  - now destruct k.
  - destruct k as [|k]; simpl in *.
    + injection Hk as ->. f_equal. f_equal. lia.
    + rewrite (IH _ _ _ Hk). f_equal. f_equal. lia.
Qed.

(** Past position 2^31 - 1 the visitor is not handed the position. *)
Lemma each_indexed_wraps {A} (cont : list A) (k : nat) (a : A) fuel
    (e : env A (list (A * Z))) :
  Z.of_nat k = 2 ^ 31 ->
  nth_error cont k = Some a ->
  (length cont < fuel)%nat ->
  each_indexed fuel cont (visitor_indexed record_indexed) e
  <> Done (set_user (user e ++ combine cont (positions 0 (length cont))) e).
Proof.
  intros Hk Ha Hfuel. rewrite each_indexed_records by exact Hfuel.
  intros H. apply Done_inj, (f_equal user) in H. unfold set_user in H.
  cbn [user] in H. apply app_inv_head in H.
  apply (f_equal (fun l => nth_error l k)) in H.
  rewrite nth_error_map, (nth_error_with_positions cont 0 k a Ha) in H.
  cbn [option_map fst snd] in H. rewrite Hk in H.
  injection H as H. vm_compute in H. discriminate H.
Qed.

Lemma nth_error_repeat_lt {A} (a : A) (n k : nat) :
  (k < n)%nat -> nth_error (repeat a n) k = Some a.
Proof.
  revert k. induction n as [|n IH]; intros k Hk; [lia|].
  destruct k as [|k]; simpl; [reflexivity|]. apply IH. lia.
Qed.

(** C6, as stated, fails for the indexed overload: in a container of
    2^31 + 1 elements the last element is at position 2^31, and the visitor,
    whose second parameter is an [int], is handed -2^31 for it. *)
Lemma each_indexed_wraps_int :
  each_indexed (S (length huge)) huge (visitor_indexed record_indexed)
    (Env huge [])
  <> Done (Env huge (combine huge (positions 0 (length huge)))).
Proof.
  apply (each_indexed_wraps huge (Z.to_nat (2 ^ 31)) tt (S (length huge))
           (Env huge [])).
  - apply Z2Nat.id. apply Z.pow_nonneg. discriminate.
  - apply nth_error_repeat_lt. unfold beyond_int.
    apply Z2Nat.inj_lt.
    + apply Z.pow_nonneg. discriminate.
    + apply Z.add_nonneg_nonneg; [apply Z.pow_nonneg|]; discriminate.
    + apply Z.lt_succ_diag_r.
  - apply Nat.lt_succ_diag_r.
Qed.

(** C6.  A visitor that records its arguments, handed to [each] with a
    container [c], is called once for each element of [c], in the
    container's order: what it has recorded when [each] returns is [c]
    itself, [size c] calls.  Handed to the indexed overload with a
    container [ci] whose positions all fit the visitor's [int] parameter
    (at most 2^31 elements), it has recorded each element paired with its
    position, 0 to [size ci - 1] in ascending order, [size ci] calls. *)
Theorem each_visits_every_element {A} (c ci : list A) (fuel : nat)
    (e : env A (list A)) (ei : env A (list (A * Z))) :
  (length c < fuel)%nat ->
  (length ci < fuel)%nat ->
  Z.of_nat (length ci) <= 2 ^ 31 ->
  each fuel c (visitor record) e = Done (set_user (user e ++ c) e)
  /\ each_indexed fuel ci (visitor_indexed record_indexed) ei
     = Done (set_user (user ei ++ combine ci (positions 0 (length ci))) ei)
  /\ length (combine ci (positions 0 (length ci))) = size ci.
Proof.
  intros Hfuel Hfueli Hfits. split; [|split].
  - rewrite each_runs by exact Hfuel. now rewrite fold_record.
  - rewrite each_indexed_records by exact Hfueli.
    now rewrite map_to_int_positions by lia.
  - rewrite length_combine, positions_length. unfold size. lia.
Qed.

Lemma each_visits_every_element_witness :
  each 4 [10; 20; 30] (visitor record) (Env [10; 20; 30] [])
  = Done (Env [10; 20; 30] [10; 20; 30])
  /\ each_indexed 4 [10; 20; 30] (visitor_indexed record_indexed)
       (Env [10; 20; 30] [])
     = Done (Env [10; 20; 30] [(10, 0); (20, 1); (30, 2)])
  /\ length (combine [10; 20; 30] (positions 0 3)) = 3%nat.
Proof.
  apply (each_visits_every_element [10; 20; 30] [10; 20; 30] 4
           (Env [10; 20; 30] []) (Env [10; 20; 30] []));
    simpl; lia.
Defined.

(* ================================================================= *)
(** ** Searching: [until] and [find] *)

Section Search_facts.
Context {A U : Type}.
Implicit Types (pre rest cont : list A) (e : env A U) (p : A -> bool).

Lemma first_at_head p a rest : p a = true -> first_at p (a :: rest) 0 a.
Proof.
  intros Hp. repeat split; [exact Hp|]. intros j b Hj. lia.
Qed.

Lemma first_at_tail p a rest i b :
  p a = false -> first_at p rest i b -> first_at p (a :: rest) (S i) b.
Proof.
  intros Hp (Hnth & Hb & Hbefore). repeat split; [exact Hnth|exact Hb|].
  intros [|j] c Hj Hc; simpl in Hc.
  - now injection Hc as <-.
  - apply (Hbefore j c); [lia|exact Hc].
Qed.

Lemma none_of_cons p a rest :
  p a = false -> none_of p rest -> none_of p (a :: rest).
Proof.
  intros Hp Hrest b [<-|Hb]; [exact Hp|now apply Hrest].
Qed.

Lemma first_at_not_none p cont i a : first_at p cont i a -> ~ none_of p cont.
Proof.
  intros (Hnth & Hp & _) Hnone.
  apply nth_error_In in Hnth. rewrite (Hnone a Hnth) in Hp. discriminate.
Qed.

Lemma set_user_same e : set_user (user e) e = e.
Proof. now destruct e. Qed.

(** From the current position [until] either meets a first accepted
    element, having called the predicate on the elements up to and
    including it, or runs to the end, having called it on all of them. *)
Lemma until_loop_runs p (g : A -> U -> U) rest :
  forall pre fuel e,
    (length rest < fuel)%nat ->
    (exists i a,
        first_at p rest i a
        /\ until_loop fuel (pre ++ rest) (predicate p g)
             (Z.of_nat (length pre)) e
           = Done (true,
                   set_user (after_calls g (firstn (S i) rest) (user e)) e))
    \/ (none_of p rest
        /\ until_loop fuel (pre ++ rest) (predicate p g)
             (Z.of_nat (length pre)) e
           = Done (false, set_user (after_calls g rest (user e)) e)).
Proof.
  induction rest as [|a rest IH]; intros pre fuel e Hfuel;
    (destruct fuel as [|fuel]; [simpl in Hfuel; lia|]); simpl.
  - right. split; [intros a []|]. at_position.
    unfold after_calls. simpl. now rewrite set_user_same.
  - at_position.
    change (predicate p g a e) with (p a, set_user (g a (user e)) e).
    destruct (p a) eqn:Hp.
    + left. exists 0%nat, a. split; [now apply first_at_head|reflexivity].
    + rewrite (next_here pre a), snoc_cons.
      destruct (IH (pre ++ [a]) fuel (set_user (g a (user e)) e))
        as [(i & b & Hfirst & Hrun)|(Hnone & Hrun)];
        [simpl in Hfuel; lia| |].
      * left. exists (S i), b. split; [now apply first_at_tail|].
        rewrite Hrun. reflexivity.
      * right. split; [now apply none_of_cons|].
        rewrite Hrun. reflexivity.
Qed.

(** The same for [find], which reads the caller's container. *)
Lemma find_loop_runs p (g : A -> U -> U) rest :
  forall pre fuel e,
    store e = pre ++ rest ->
    (length rest < fuel)%nat ->
    (exists i a,
        first_at p rest i a
        /\ find_loop fuel (predicate p g) (Z.of_nat (length pre)) e
           = Done (Some a,
                   set_user (after_calls g (firstn (S i) rest) (user e)) e))
    \/ (none_of p rest
        /\ find_loop fuel (predicate p g) (Z.of_nat (length pre)) e
           = Done (None, set_user (after_calls g rest (user e)) e)).
Proof.
  induction rest as [|a rest IH]; intros pre fuel e Hstore Hfuel;
    (destruct fuel as [|fuel]; [simpl in Hfuel; lia|]); simpl;
    rewrite Hstore.
  - right. split; [intros a []|]. at_position.
    unfold after_calls. simpl. now rewrite set_user_same.
  - at_position.
    change (predicate p g a e) with (p a, set_user (g a (user e)) e).
    destruct (p a) eqn:Hp; cbn [negb].
    + left. exists 0%nat, a. split; [now apply first_at_head|reflexivity].
    + rewrite (next_here pre a).
      destruct (IH (pre ++ [a]) fuel (set_user (g a (user e)) e))
        as [(i & b & Hfirst & Hrun)|(Hnone & Hrun)];
        [simpl; now rewrite Hstore, snoc_cons|simpl in Hfuel; lia| |].
      * left. exists (S i), b. split; [now apply first_at_tail|].
        rewrite Hrun. reflexivity.
      * right. split; [now apply none_of_cons|].
        rewrite Hrun. reflexivity.
Qed.
End Search_facts.

Lemma after_calls_record {A} (calls : list A) : forall seen : list A,
  after_calls record calls seen = seen ++ calls.
Proof.
  unfold after_calls.
  induction calls as [|a calls IH]; intros seen; simpl.
  - now rewrite app_nil_r.
  - rewrite IH. unfold record. now rewrite <- app_assoc.
Qed.

(** C3.  For a predicate that answers [p] and records its arguments,
    [until] returns true exactly when some element of the container
    satisfies [p]; when it does, the predicate has been called on the
    elements up to and including the first one that satisfies [p] and on
    none after it; when it returns false the predicate has been called on
    every element; on the empty container it returns false. *)
Theorem until_first_match {A} (p : A -> bool) (c : list A) (fuel : nat)
    (e : env A (list A)) :
  (length c < fuel)%nat ->
  exists b calls,
    until fuel c (predicate p record) e
    = Done (b, set_user (user e ++ calls) e)
    /\ (b = true <-> exists i a, nth_error c i = Some a /\ p a = true)
    /\ (b = true -> exists i a, first_at p c i a /\ calls = firstn (S i) c)
    /\ (b = false -> calls = c)
    /\ (c = [] -> b = false).
Proof.
  intros Hfuel. unfold until, begin.
  destruct (until_loop_runs p record c [] fuel e Hfuel)
    as [(i & a & Hfirst & Hrun)|(Hnone & Hrun)];
    simpl in Hrun; rewrite Hrun, after_calls_record.
  - exists true, (firstn (S i) c). split; [reflexivity|].
    repeat split; try discriminate.
    + intros _. destruct Hfirst as (Hnth & Hp & _). now exists i, a.
    + intros _. now exists i, a.
    + intros ->. destruct Hfirst as (Hnth & _). now destruct i.
  - exists false, c. split; [reflexivity|].
    repeat split; try discriminate; try reflexivity.
    intros (i & a & Hnth & Hp).
    apply nth_error_In in Hnth. rewrite (Hnone a Hnth) in Hp. discriminate.
Qed.

Lemma until_first_match_witness :
  exists b calls,
    until 5 [1; 3; 4; 6] (predicate Z.even record) (Env [1; 3; 4; 6] [])
    = Done (b, set_user ([] ++ calls) (Env [1; 3; 4; 6] []))
    /\ (b = true
        <-> exists i a, nth_error [1; 3; 4; 6] i = Some a /\ Z.even a = true)
    /\ (b = true ->
        exists i a, first_at Z.even [1; 3; 4; 6] i a
                    /\ calls = firstn (S i) [1; 3; 4; 6])
    /\ (b = false -> calls = [1; 3; 4; 6])
    /\ ([1; 3; 4; 6] = [] -> b = false).
Proof.
  apply (until_first_match Z.even [1; 3; 4; 6] 5 (Env [1; 3; 4; 6] [])).
  simpl. lia.
Defined.

(** C5.  For a predicate that answers [p], [find] returns the element at
    the smallest position whose element satisfies [p], and returns nothing
    exactly when no element satisfies [p], as on the empty container. *)
Theorem find_first_match {A U} (p : A -> bool) (g : A -> U -> U)
    (e : env A U) (fuel : nat) :
  (length (store e) < fuel)%nat ->
  exists r e',
    find fuel (predicate p g) e = Done (r, e')
    /\ (forall a, r = Some a -> exists i, first_at p (store e) i a)
    /\ (r = None <-> forall a, In a (store e) -> p a = false)
    /\ (store e = [] -> r = None).
Proof.
  intros Hfuel. unfold find, begin.
  destruct (find_loop_runs p g (store e) [] fuel e eq_refl Hfuel)
    as [(i & a & Hfirst & Hrun)|(Hnone & Hrun)];
    simpl in Hrun; rewrite Hrun.
  - eexists _, _. split; [reflexivity|]. repeat split.
    + intros b Hb. injection Hb as <-. now exists i.
    + discriminate.
    + intros Hnone. now apply first_at_not_none in Hfirst.
    + intros Hempty. rewrite Hempty in Hfirst.
      destruct Hfirst as (Hnth & _). now destruct i.
  - eexists _, _. split; [reflexivity|]. repeat split.
    + discriminate.
    + intros _. exact Hnone.
Qed.

Lemma find_first_match_witness :
  exists r e',
    find 5 (predicate Z.even record) (Env [1; 4; 3; 6] [])
    = Done (r, e')
    /\ (forall a, r = Some a -> exists i, first_at Z.even [1; 4; 3; 6] i a)
    /\ (r = None <-> forall a, In a [1; 4; 3; 6] -> Z.even a = false)
    /\ ([1; 4; 3; 6] = [] -> r = None).
Proof.
  apply (find_first_match Z.even record (Env [1; 4; 3; 6] []) 5).
  simpl. lia.
Defined.

(* ================================================================= *)
(** ** [remove] *)

Section Remove_facts.
Context {A U : Type}.
Implicit Types (pre rest cont : list A) (e : env A U) (log : list event).

Lemma next_prev (iter : iterator) : next (prev iter) = iter.
Proof. unfold next, prev. lia. Qed.

Lemma in_bounds_here (op : access) pre a rest :
  op <> Decr ->
  in_bounds (Ev op (Z.of_nat (length pre)) (size (pre ++ a :: rest))) = true.
Proof.
  intros Hop. unfold in_bounds, size. rewrite length_app. simpl.
  assert (H : (0 <=? Z.of_nat (length pre))
              && (Z.of_nat (length pre)
                  <? Z.of_nat (length pre + S (length rest))) = true).
  { apply andb_true_iff. split; [apply Z.leb_le|apply Z.ltb_lt]; lia. }
  destruct op; try exact H. now contradiction Hop.
Qed.

Lemma in_bounds_step_back pre rest :
  in_bounds (Ev Decr (Z.of_nat (length pre)) (size (pre ++ rest)))
  = match pre with [] => false | _ :: _ => true end.
Proof.
  unfold in_bounds, size. rewrite length_app. cbn [what pos size_then].
  destruct pre as [|b pre]; [reflexivity|]. cbn [length].
  apply andb_true_iff. split; [apply Z.ltb_lt|apply Z.leb_le]; lia.
Qed.

Lemma in_bounds_step_again pre rest :
  in_bounds (Ev Incr (prev (Z.of_nat (length pre))) (size (pre ++ rest)))
  = match pre with [] => false | _ :: _ => true end.
Proof.
  unfold in_bounds, size, prev. rewrite length_app. cbn [what pos size_then].
  destruct pre as [|b pre]; [reflexivity|]. cbn [length].
  apply andb_true_iff. split; [apply Z.leb_le|apply Z.ltb_lt]; lia.
Qed.

(** The loop of [remove], standing at the end of [pre] with [rest] ahead,
    for a test that answers [k] and whose only effect is [g]: it returns;
    the elements of [rest] that [k] lets stay follow [pre] in their
    original order; the test has been applied to each element of [rest] in
    turn; every element of [rest] has been read once; and the iterator
    left the container's range exactly when the loop started at [begin] on
    an element that had to go. *)
Lemma remove_loop_runs (stays : A -> env A U -> bool * env A U)
    (k : A -> bool) (g : A -> U -> U) :
  (forall a e, stays a e = (k a, set_user (g a (user e)) e)) ->
  forall rest pre fuel e log,
    store e = pre ++ rest ->
    (length rest < fuel)%nat ->
    exists evs,
      remove_loop fuel stays (Z.of_nat (length pre)) e log
      = Done (Env (pre ++ filter k rest) (after_calls g rest (user e)),
              log ++ evs)
      /\ all_in_bounds evs
         = match pre, rest with [], a :: _ => k a | _, _ => true end
      /\ reads evs = length rest.
Proof.
  intros Hstays.
  induction rest as [|a rest IH]; intros pre fuel [cont u] log Hstore Hfuel;
    simpl in Hstore; subst cont;
    (destruct fuel as [|fuel]; [simpl in Hfuel; lia|]);
    cbn [remove_loop store].
  - at_position. exists []. rewrite !app_nil_r.
    repeat split. now destruct pre.
  - at_position. rewrite Hstays. unfold set_user. cbn [user store].
    destruct (k a) eqn:Hk.
    + rewrite (next_here pre a).
      destruct (IH (pre ++ [a]) fuel (Env (pre ++ a :: rest) (g a u))
                  ((log ++ [Ev Deref (Z.of_nat (length pre))
                              (size (pre ++ a :: rest))])
                   ++ [Ev Incr (Z.of_nat (length pre))
                         (size (pre ++ a :: rest))]))
        as (evs & Hrun & Hsafe & Hreads);
        [apply snoc_cons|simpl in Hfuel; lia|].
      eexists (Ev Deref _ _ :: Ev Incr _ _ :: evs).
      rewrite Hrun. cbn [user filter]. rewrite Hk.
      repeat rewrite <- app_assoc. cbn [app]. split; [reflexivity|]. split.
      * unfold all_in_bounds in *. cbn [forallb].
        rewrite !in_bounds_here, Hsafe by discriminate.
        destruct pre; now destruct rest.
      * unfold reads in *. cbn [filter is_deref what length]. now rewrite Hreads.
    + rewrite erase_here. unfold set_store. cbn [user]. rewrite next_prev.
      destruct (IH pre fuel (Env (pre ++ rest) (g a u))
                  ((log ++ [Ev Deref (Z.of_nat (length pre))
                              (size (pre ++ a :: rest))])
                   ++ [Ev Erase (Z.of_nat (length pre))
                         (size (pre ++ a :: rest));
                       Ev Decr (Z.of_nat (length pre)) (size (pre ++ rest));
                       Ev Incr (prev (Z.of_nat (length pre)))
                         (size (pre ++ rest))]))
        as (evs & Hrun & Hsafe & Hreads);
        [reflexivity|simpl in Hfuel; lia|].
      eexists (Ev Deref _ _ :: Ev Erase _ _ :: Ev Decr _ _ :: Ev Incr _ _
               :: evs).
      rewrite Hrun. cbn [user filter]. rewrite Hk.
      repeat rewrite <- app_assoc. cbn [app]. split; [reflexivity|]. split.
      * unfold all_in_bounds in *. cbn [forallb].
        rewrite !in_bounds_here, in_bounds_step_back, in_bounds_step_again,
          Hsafe by discriminate.
        destruct pre; reflexivity.
      * unfold reads in *. cbn [filter is_deref what length]. now rewrite Hreads.
Qed.
End Remove_facts.

Lemma after_calls_idle {A U} (calls : list A) (u : U) :
  after_calls (fun _ u' => u') calls u = u.
Proof.
  unfold after_calls. induction calls as [|a calls IH]; simpl; auto.
Qed.

Lemma filter_twice {A} (k : A -> bool) (c : list A) :
  filter k (filter k c) = filter k c.
Proof.
  induction c as [|a c IH]; simpl; [reflexivity|].
  destruct (k a) eqn:Hk; simpl; [rewrite Hk, IH|]; auto.
Qed.

Lemma filter_shorter {A} (k : A -> bool) (c : list A) :
  (length (filter k c) <= length c)%nat.
Proof.
  induction c as [|a c IH]; simpl; [lia|].
  destruct (k a); simpl; lia.
Qed.

Lemma filter_strictly_shorter {A} (k : A -> bool) (c : list A) (a : A) :
  In a c -> k a = false -> (length (filter k c) < length c)%nat.
Proof.
  induction c as [|b c IH]; intros Hin Hk; [contradiction|].
  simpl. destruct Hin as [->|Hin].
  - rewrite Hk. pose proof (filter_shorter k c). lia.
  - specialize (IH Hin Hk). destruct (k b); simpl; lia.
Qed.

Lemma differs_true {A} `{Comparable A} (x y : A) :
  differs x y = true <-> x <> y.
Proof.
  rewrite <- differs_false. destruct (differs x y); split; congruence.
Qed.

(** [remove(cont, find)] on a caller who owns [cont]. *)
Lemma remove_runs {A U} `{Comparable A} (x : A) (c : list A) (u : U)
    (fuel : nat) :
  (length c < fuel)%nat ->
  exists log,
    remove fuel x (Env c u)
    = Done (Env (filter (fun a => differs a x) c) u, log)
    /\ all_in_bounds log
       = match c with [] => true | a :: _ => differs a x end
    /\ reads log = length c.
Proof.
  intros Hfuel. unfold remove, begin.
  destruct (remove_loop_runs (fun a e0 => (differs a x, e0))
              (fun a => differs a x) (fun _ u' => u')
              (fun a e => f_equal (pair (differs a x))
                            (eq_sym (set_user_same e)))
              c [] fuel (Env c u) [] eq_refl Hfuel)
    as (log & Hrun & Hsafe & Hreads).
  exists log. cbn [length Z.of_nat app user] in Hrun.
  rewrite after_calls_idle in Hrun. auto.
Qed.

(** [remove(cont, func)] on a caller who owns [cont]. *)
Lemma remove_if_runs {A U} (p : A -> bool) (g : A -> U -> U) (c : list A)
    (u : U) (fuel : nat) :
  (length c < fuel)%nat ->
  exists log,
    remove_if fuel (predicate p g) (Env c u)
    = Done (Env (filter (fun a => negb (p a)) c) (after_calls g c u), log)
    /\ all_in_bounds log
       = match c with [] => true | a :: _ => negb (p a) end
    /\ reads log = length c.
Proof.
  intros Hfuel. unfold remove_if, begin.
  destruct (remove_loop_runs
              (fun a e0 => let (b, e1) := predicate p g a e0 in (negb b, e1))
              (fun a => negb (p a)) g (fun a e => eq_refl)
              c [] fuel (Env c u) [] eq_refl Hfuel)
    as (log & Hrun & Hsafe & Hreads).
  exists log. auto.
Qed.

(** C1.  [remove(c, x)] returns with the container holding exactly the
    elements that differ from [x], in their original order, having read
    each element of the original container once; so from [x, y, x, z],
    with [y] and [z] other than [x], it leaves [y, z].  [remove(c, p)], for
    a predicate that answers [p] and records its arguments, returns with
    the container holding exactly the elements [p] rejects, in their
    original order, the predicate having been called on each element of
    the original container once, in order. *)
Theorem remove_keeps_the_rest {A U} `{Comparable A} (x : A) (p : A -> bool)
    (c cp : list A) (u : U) (fuel : nat) :
  (length c < fuel)%nat ->
  (length cp < fuel)%nat ->
  (exists log,
      remove fuel x (Env c u)
      = Done (Env (filter (fun a => differs a x) c) u, log)
      /\ reads log = length c)
  /\ (forall a, In a (filter (fun a => differs a x) c) <-> In a c /\ a <> x)
  /\ (forall y z, y <> x -> z <> x -> c = [x; y; x; z] ->
      filter (fun a => differs a x) c = [y; z])
  /\ (exists log,
        remove_if fuel (predicate p record) (Env cp [])
        = Done (Env (filter (fun a => negb (p a)) cp) cp, log)
        /\ reads log = length cp).
Proof.
  intros Hfuel Hfuelp. split; [|split; [|split]].
  - destruct (remove_runs x c u fuel Hfuel) as (log & Hrun & _ & Hreads).
    now exists log.
  - intros a. rewrite filter_In. now rewrite differs_true.
  - intros y z Hy Hz ->. simpl.
    apply differs_true in Hy, Hz. rewrite Hy, Hz.
    now rewrite (proj2 (differs_false x x) eq_refl).
  - destruct (remove_if_runs p record cp [] fuel Hfuelp)
      as (log & Hrun & _ & Hreads).
    exists log. now rewrite after_calls_record in Hrun.
Qed.

Lemma remove_keeps_the_rest_witness :
  (exists log,
      remove 5 7 (Env [7; 8; 7; 9] tt) = Done (Env [8; 9] tt, log)
      /\ reads log = 4%nat)
  /\ (forall a, In a [8; 9] <-> In a [7; 8; 7; 9] /\ a <> 7)
  /\ (forall y z, y <> 7 -> z <> 7 -> [7; 8; 7; 9] = [7; y; 7; z] ->
      [8; 9] = [y; z])
  /\ (exists log,
        remove_if 5 (predicate Z.even record) (Env [1; 2; 3; 4] [])
        = Done (Env [1; 3] [1; 2; 3; 4], log)
        /\ reads log = 4%nat).
Proof.
  assert (Hfuel : (length [7; 8; 7; 9] < 5)%nat) by (simpl; lia).
  assert (Hfuelp : (length [1; 2; 3; 4] < 5)%nat) by (simpl; lia).
  exact (remove_keeps_the_rest 7 Z.even [7; 8; 7; 9] [1; 2; 3; 4] tt 5
           Hfuel Hfuelp).
Defined.

(** X18.  Where [remove] stays inside the container.  Either overload keeps
    every iterator operation within the container's range exactly when the
    container is empty or its first element stays. *)
Lemma remove_in_range_iff {A U} `{Comparable A} (x : A) (p : A -> bool)
    (g : A -> U -> U) (c : list A) (u : U) (fuel : nat) :
  (length c < fuel)%nat ->
  (exists e' log,
      remove fuel x (Env c u) = Done (e', log)
      /\ (all_in_bounds log = true <-> hd_error c <> Some x))
  /\ (exists e' log,
        remove_if fuel (predicate p g) (Env c u) = Done (e', log)
        /\ (all_in_bounds log = true
            <-> forall a, hd_error c = Some a -> p a = false)).
Proof.
  intros Hfuel. split.
  - destruct (remove_runs x c u fuel Hfuel) as (log & Hrun & Hsafe & _).
    eexists _, log. split; [exact Hrun|]. rewrite Hsafe.
    destruct c as [|a c]; simpl.
    + split; [discriminate|reflexivity].
    + rewrite differs_true. split; congruence.
  - destruct (remove_if_runs p g c u fuel Hfuel) as (log & Hrun & Hsafe & _).
    eexists _, log. split; [exact Hrun|]. rewrite Hsafe.
    destruct c as [|a c]; simpl.
    + split; [discriminate|reflexivity].
    + rewrite negb_true_iff. split.
      * intros Hp b Hb. now injection Hb as <-.
      * intros Hall. now apply Hall.
Qed.

(** C2.  The claim fails whenever the first element has to go.  On the
    one-element container [7], [remove(c, 7)] erases position 0, is handed
    back [begin], steps back from it to position -1, outside the
    container, and steps forward from there; the predicate overload does
    the same on [4] with an is-even predicate.  No element is skipped: the
    container ends up empty. *)
Theorem remove_steps_back_from_begin :
  remove 2 7 (Env [7] tt)
  = Done (Env [] tt,
          [Ev Deref 0 1; Ev Erase 0 1; Ev Decr 0 0; Ev Incr (-1) 0])
  /\ remove_if 2 (predicate Z.even (fun _ u => u)) (Env [4] tt)
     = Done (Env [] tt,
             [Ev Deref 0 1; Ev Erase 0 1; Ev Decr 0 0; Ev Incr (-1) 0])
  /\ in_bounds (Ev Decr 0 0) = false
  /\ in_bounds (Ev Incr (-1) 0) = false.
Proof. repeat split. Qed.

(** C8.  Calling [remove(c, x)] a second time changes nothing: the first
    call returns with a container none of whose elements equals [x], and
    the second call returns with that same container. *)
Theorem remove_twice {A U} `{Comparable A} (x : A) (c : list A) (u : U)
    (fuel : nat) :
  (length c < fuel)%nat ->
  exists c' log1 log2,
    remove fuel x (Env c u) = Done (Env c' u, log1)
    /\ (forall a, In a c' -> a <> x)
    /\ remove fuel x (Env c' u) = Done (Env c' u, log2).
Proof.
  intros Hfuel.
  destruct (remove_runs x c u fuel Hfuel) as (log1 & Hrun1 & _).
  pose proof (filter_shorter (fun a => differs a x) c) as Hshort.
  destruct (remove_runs x (filter (fun a => differs a x) c) u fuel)
    as (log2 & Hrun2 & _); [lia|].
  rewrite filter_twice in Hrun2.
  exists (filter (fun a => differs a x) c), log1, log2.
  split; [exact Hrun1|]. split; [|exact Hrun2].
  intros a Ha. apply filter_In in Ha. now apply differs_true.
Qed.

Lemma remove_twice_witness :
  exists c' log1 log2,
    remove 5 7 (Env [7; 8; 7; 9] tt) = Done (Env c' tt, log1)
    /\ (forall a, In a c' -> a <> 7)
    /\ remove 5 7 (Env c' tt) = Done (Env c' tt, log2).
Proof.
  apply (remove_twice 7 [7; 8; 7; 9] tt 5). simpl. lia.
Defined.

(** C9.  When [find(c, p)] reports an element, [remove(c, p)], called next
    on the same container, returns with a container that is shorter and
    in which that element no longer occurs. *)
Theorem find_then_remove {A U} (p : A -> bool) (g : A -> U -> U)
    (c : list A) (u : U) (fuel : nat) (a : A) (e1 : env A U) :
  (length c < fuel)%nat ->
  find fuel (predicate p g) (Env c u) = Done (Some a, e1) ->
  exists e2 log,
    remove_if fuel (predicate p g) e1 = Done (e2, log)
    /\ In a c
    /\ ~ In a (store e2)
    /\ (length (store e2) < length c)%nat.
Proof.
  intros Hfuel Hfind. unfold find, begin in Hfind.
  destruct (find_loop_runs p g c [] fuel (Env c u) eq_refl Hfuel)
    as [(i & b & Hfirst & Hrun)|(_ & Hrun)];
    simpl in Hrun; rewrite Hrun in Hfind; [|discriminate].
  injection Hfind as -> <-.
  destruct Hfirst as (Hnth & Hp & _). apply nth_error_In in Hnth.
  unfold set_user. cbn [store].
  destruct (remove_if_runs p g c
              (after_calls g (firstn (S i) c) u) fuel Hfuel)
    as (log & Hremove & _).
  eexists _, log. split; [exact Hremove|]. cbn [store].
  split; [exact Hnth|]. split.
  - intros Hin. apply filter_In in Hin. destruct Hin as (_ & Hkept).
    rewrite Hp in Hkept. discriminate.
  - apply (filter_strictly_shorter _ c a Hnth). now rewrite Hp.
Qed.

Lemma find_then_remove_witness :
  exists e2 log,
    remove_if 5 (predicate Z.even record) (Env [1; 4; 3; 6] [1; 4])
    = Done (e2, log)
    /\ In 4 [1; 4; 3; 6]
    /\ ~ In 4 (store e2)
    /\ (length (store e2) < length [1; 4; 3; 6])%nat.
Proof.
  apply (find_then_remove Z.even record [1; 4; 3; 6] [] 5 4
           (Env [1; 4; 3; 6] [1; 4])).
  - simpl. lia.
  - reflexivity.
Defined.

(* ================================================================= *)
(** ** [pop] *)

(** C4.  On a container [a, b, ...] [pop] returns [a] and leaves the
    container one element shorter, starting with [b]; on a one-element
    container it returns the element and leaves the container empty; on
    the empty container it returns nothing and leaves it as it was. *)
Theorem pop_takes_the_front {A U} (a b : A) (rest : list A) (u : U) :
  pop (Env (a :: b :: rest) u) = (Some a, Env (b :: rest) u)
  /\ size (b :: rest) = (size (a :: b :: rest) - 1)%nat
  /\ front (b :: rest) = Some b
  /\ pop (Env [a] u) = (Some a, Env [] u)
  /\ pop (Env (@nil A) u) = (None, Env [] u).
Proof.
  repeat split.
Qed.

(* ================================================================= *)
(** ** What the combinators leave alone *)

Section Frame_facts.
Context {A U : Type}.
Implicit Types (pre rest cont : list A) (e : env A U).

Lemma each_frames (func : A -> env A U -> env A U) :
  visitor_frames func ->
  forall cont e, store (fold_left (fun e' a => func a e') cont e) = store e.
Proof.
  intros Hframe. induction cont as [|a cont IH]; intros e; simpl.
  - reflexivity.
  - now rewrite IH, Hframe.
Qed.

Lemma each_indexed_frames (func : A -> Z -> env A U -> env A U) :
  visitor_indexed_frames func ->
  forall (l : list (A * Z)) e,
    store (fold_left (fun e' ai => func (fst ai) (to_int (snd ai)) e') l e)
    = store e.
Proof.
  intros Hframe. induction l as [|ai l IH]; intros e; simpl.
  - reflexivity.
  - now rewrite IH, Hframe.
Qed.

Lemma until_loop_frames (func : A -> env A U -> bool * env A U) rest :
  predicate_frames func ->
  forall pre fuel e,
    (length rest < fuel)%nat ->
    exists b e',
      until_loop fuel (pre ++ rest) func (Z.of_nat (length pre)) e
      = Done (b, e')
      /\ store e' = store e.
Proof.
  intros Hframe.
  induction rest as [|a rest IH]; intros pre fuel e Hfuel;
    (destruct fuel as [|fuel]; [simpl in Hfuel; lia|]); simpl;
    at_position.
  - now exists false, e.
  - pose proof (Hframe a e) as Hstore.
    destruct (func a e) as [[|] e1]; simpl in Hstore.
    + now exists true, e1.
    + rewrite (next_here pre a), snoc_cons.
      destruct (IH (pre ++ [a]) fuel e1) as (b & e' & Hrun & Hsame);
        [simpl in Hfuel; lia|].
      exists b, e'. split; [exact Hrun|congruence].
Qed.

Lemma find_loop_frames (func : A -> env A U -> bool * env A U) rest :
  predicate_frames func ->
  forall pre fuel e,
    store e = pre ++ rest ->
    (length rest < fuel)%nat ->
    exists r e',
      find_loop fuel func (Z.of_nat (length pre)) e = Done (r, e')
      /\ store e' = store e.
Proof.
  intros Hframe.
  induction rest as [|a rest IH]; intros pre fuel e Hhere Hfuel;
    (destruct fuel as [|fuel]; [simpl in Hfuel; lia|]); simpl;
    rewrite Hhere; at_position.
  - now exists None, e.
  - pose proof (Hframe a e) as Hstore.
    destruct (func a e) as [[|] e1]; simpl in Hstore; simpl.
    + rewrite Hstore, Hhere. at_position.
      exists (Some a), e1. split; [reflexivity|congruence].
    + rewrite (next_here pre a).
      destruct (IH (pre ++ [a]) fuel e1) as (r & e' & Hrun & Hsame);
        [now rewrite Hstore, Hhere, snoc_cons|simpl in Hfuel; lia|].
      exists r, e'. split; [exact Hrun|congruence].
Qed.
End Frame_facts.

(** C7.  With callbacks that leave the caller's container alone, [each]
    (either overload), [until] and [find] return with the caller's
    container holding what it held before the call.  [pop] and [remove]
    do change it: each empties a one-element container (for [remove], one
    holding the target). *)
Theorem readers_leave_the_container {A U} `{Comparable A}
    (v : A -> env A U -> env A U) (vi : A -> Z -> env A U -> env A U)
    (q : A -> env A U -> bool * env A U) (e : env A U) (fuel : nat) :
  visitor_frames v ->
  visitor_indexed_frames vi ->
  predicate_frames q ->
  (length (store e) < fuel)%nat ->
  (exists e', each fuel (store e) v e = Done e' /\ store e' = store e)
  /\ (exists e',
        each_indexed fuel (store e) vi e = Done e' /\ store e' = store e)
  /\ (exists b e',
        until fuel (store e) q e = Done (b, e') /\ store e' = store e)
  /\ (exists r e', find fuel q e = Done (r, e') /\ store e' = store e)
  /\ (forall a : A, store (snd (pop (Env [a] (user e)))) = [])
  /\ (forall a : A, final_store (remove 2 a (Env [a] (user e))) = Some []).
Proof.
  intros Hv Hvi Hq Hfuel. repeat match goal with |- _ /\ _ => split end.
  - rewrite each_runs by exact Hfuel. eexists. split; [reflexivity|].
    now apply each_frames.
  - rewrite each_indexed_runs by exact Hfuel. eexists. split; [reflexivity|].
    now apply each_indexed_frames.
  - apply (until_loop_frames q (store e) Hq [] fuel e Hfuel).
  - apply (find_loop_frames q (store e) Hq [] fuel e eq_refl Hfuel).
  - reflexivity.
  - intros a.
    destruct (remove_runs a [a] (user e) 2) as (log & Hrun & _);
      [simpl; lia|].
    rewrite Hrun. simpl.
    now rewrite (proj2 (differs_false a a) eq_refl).
Qed.

Lemma readers_leave_the_container_witness :
  let e := Env [1; 4; 3] [] in
  (exists e', each 4 (store e) (visitor record) e = Done e'
              /\ store e' = store e)
  /\ (exists e',
        each_indexed 4 (store e) (fun a _ => visitor record a) e = Done e'
        /\ store e' = store e)
  /\ (exists b e',
        until 4 (store e) (predicate Z.even record) e = Done (b, e')
        /\ store e' = store e)
  /\ (exists r e',
        find 4 (predicate Z.even record) e = Done (r, e')
        /\ store e' = store e)
  /\ (forall a : Z, store (snd (pop (Env [a] (user e)))) = [])
  /\ (forall a : Z, final_store (remove 2 a (Env [a] (user e))) = Some []).
Proof.
  apply (readers_leave_the_container (visitor record)
           (fun a _ => visitor record a) (predicate Z.even record)
           (Env [1; 4; 3] []) 4).
  - intros a e. reflexivity.
  - intros a i e. reflexivity.
  - intros a e. reflexivity.
  - simpl. lia.
Defined.

(* ================================================================= *)
(** ** [replace] and [type_name] *)

Import Text.

Section Text_facts.
Implicit Types (text needle from to pre post : chars).

Lemma starts_with_app needle post : starts_with needle (needle ++ post) = true.
Proof.
  induction needle as [|c needle IH]; simpl; [reflexivity|].
  now rewrite Ascii.eqb_refl, IH.
Qed.

Lemma starts_with_split needle : forall text,
  starts_with needle text = true -> exists post, text = needle ++ post.
Proof.
  induction needle as [|c needle IH]; intros text Hstart; simpl in *.
  - now exists text.
  - destruct text as [|d text]; [discriminate|].
    apply andb_true_iff in Hstart. destruct Hstart as (Hcd & Hrest).
    apply Ascii.eqb_eq in Hcd. subst d.
    destruct (IH text Hrest) as (post & ->). now exists post.
Qed.

Lemma occurs_at_start needle text :
  occurs_at needle text 0 <-> starts_with needle text = true.
Proof.
  split.
  - intros (pre & post & -> & Hpre).
    apply length_zero_iff_nil in Hpre. subst pre.
    rewrite app_nil_l. apply starts_with_app.
  - intros Hstart. destruct (starts_with_split _ _ Hstart) as (post & ->).
    now exists [], post.
Qed.

Lemma occurs_at_later needle c text m :
  occurs_at needle (c :: text) (S m) <-> occurs_at needle text m.
Proof.
  split.
  - intros (pre & post & Htext & Hpre).
    destruct pre as [|d pre]; [discriminate|].
    injection Htext as -> ->. injection Hpre as Hpre. now exists pre, post.
  - intros (pre & post & -> & Hpre). exists (c :: pre), post.
    simpl. now rewrite Hpre.
Qed.

Lemma occurs_at_nil needle m : occurs_at needle [] m -> needle = [] /\ m = 0%nat.
Proof.
  intros (pre & post & Htext & Hpre). symmetry in Htext.
  apply app_eq_nil in Htext. destruct Htext as (-> & Htext).
  apply app_eq_nil in Htext. now destruct Htext as (-> & _).
Qed.

(** [find] reports the lowest position at which the needle occurs, and
    [npos] exactly when it occurs nowhere. *)
Lemma find_from_lowest needle text : forall at_,
  (exists n,
      occurs_at needle text n
      /\ (forall m, occurs_at needle text m -> (n <= m)%nat)
      /\ find_from at_ text needle = at_ + Z.of_nat n)
  \/ ((forall m, ~ occurs_at needle text m)
      /\ find_from at_ text needle = npos).
Proof.
  induction text as [|c text IH]; intros at_; simpl;
    destruct (starts_with needle _) eqn:Hstart.
  - left. exists 0%nat. split; [now apply occurs_at_start|].
    split; [intros; lia|lia].
  - right. split; [|reflexivity]. intros m Hm.
    destruct (occurs_at_nil _ _ Hm) as (-> & _). discriminate.
  - left. exists 0%nat. split; [now apply occurs_at_start|].
    split; [intros; lia|lia].
  - destruct (IH (at_ + 1)) as [(n & Hn & Hleast & Hfound)|(Hnone & Hfound)].
    + left. exists (S n). split; [now apply occurs_at_later|].
      split; [|lia]. intros [|m] Hm.
      * apply occurs_at_start in Hm. congruence.
      * apply occurs_at_later in Hm. specialize (Hleast m Hm). lia.
    + right. split; [|exact Hfound]. intros [|m] Hm.
      * apply occurs_at_start in Hm. congruence.
      * apply occurs_at_later in Hm. now apply (Hnone m).
Qed.

Lemma string_replace_middle pre from post to :
  string_replace (pre ++ from ++ post) (Z.of_nat (length pre))
    (Z.of_nat (length from)) to
  = Some (pre ++ to ++ post).
Proof.
  unfold string_replace.
  destruct (_ <? _) eqn:Hpast.
  - apply Z.ltb_lt in Hpast. rewrite length_app in Hpast. lia.
  - rewrite !Nat2Z.id. do 2 f_equal.
    + now rewrite firstn_app, firstn_all, Nat.sub_diag, firstn_O, app_nil_r.
    + f_equal. rewrite app_assoc, skipn_app, skipn_all2
        by (rewrite length_app; lia).
      rewrite length_app, Nat.sub_diag. reflexivity.
Qed.

(** Either [from] occurs in [text], and [replace] rewrites its first
    occurrence and nothing else, or it does not, and [replace] leaves the
    text as it is. *)
Lemma replace_runs text from to :
  Z.of_nat (length text) < npos ->
  (exists pre post,
      text = pre ++ from ++ post
      /\ (forall m, occurs_at from text m -> (length pre <= m)%nat)
      /\ replace text from to = Some (pre ++ to ++ post))
  \/ ((forall m, ~ occurs_at from text m)
      /\ replace text from to = Some text).
Proof.
  intros Hsize. unfold replace, string_find.
  change (to_size_t EOF) with npos.
  destruct (find_from_lowest from text 0)
    as [(n & Hn & Hleast & Hfound)|(Hnone & Hfound)]; rewrite Hfound.
  - left. destruct Hn as (pre & post & Htext & Hpre).
    exists pre, post. subst n. split; [exact Htext|]. split; [exact Hleast|].
    assert (Hin : (length pre <= length text)%nat).
    { rewrite Htext, length_app. lia. }
    destruct (_ =? npos) eqn:Hnpos; [apply Z.eqb_eq in Hnpos; lia|].
    rewrite Htext. apply string_replace_middle.
  - right. split; [exact Hnone|]. now rewrite Z.eqb_refl.
Qed.
End Text_facts.

(** C10.  [replace(text, from, to)] either finds [from] in [text], and
    then rewrites the occurrence at the lowest position and leaves what
    precedes and what follows it as it was, or does not find it, and then
    leaves [text] unchanged; so of the two dashes of [a-b-c] only the first
    is rewritten.  [type_name] hands the decorated name to [replace] once:
    at most the first ["> >"] of a name becomes [">>"], and for three
    nested templates the second one is still there. *)
Theorem replace_first_only (text from to : chars) (T : type_facts) :
  Z.of_nat (length text) < npos ->
  Z.of_nat (length (decorated T)) < npos ->
  ((exists pre post,
       text = pre ++ from ++ post
       /\ (forall m, occurs_at from text m -> (length pre <= m)%nat)
       /\ replace text from to = Some (pre ++ to ++ post))
   \/ ((forall m, ~ occurs_at from text m)
       /\ replace text from to = Some text))
  /\ ((exists pre post,
          decorated T = pre ++ lit "> >" ++ post
          /\ (forall m, occurs_at (lit "> >") (decorated T) m ->
              (length pre <= m)%nat)
          /\ type_name T = Some (pre ++ lit ">>" ++ post))
      \/ ((forall m, ~ occurs_at (lit "> >") (decorated T) m)
          /\ type_name T = Some (decorated T)))
  /\ replace (lit "a-b-c") (lit "-") (lit "+") = Some (lit "a+b-c")
  /\ type_name nested = Some (lit "A<B<C<int>> >")
  /\ contains (lit "A<B<C<int>> >") (lit "> >") = true.
Proof.
  intros Htext Hname. split; [|split; [|repeat split]].
  - now apply replace_runs.
  - unfold type_name. now apply replace_runs.
Qed.

Lemma replace_first_only_witness :
  ((exists pre post,
       lit "a-b-c" = pre ++ lit "-" ++ post
       /\ (forall m, occurs_at (lit "-") (lit "a-b-c") m ->
           (length pre <= m)%nat)
       /\ replace (lit "a-b-c") (lit "-") (lit "+")
          = Some (pre ++ lit "+" ++ post))
   \/ ((forall m, ~ occurs_at (lit "-") (lit "a-b-c") m)
       /\ replace (lit "a-b-c") (lit "-") (lit "+") = Some (lit "a-b-c")))
  /\ ((exists pre post,
          decorated nested = pre ++ lit "> >" ++ post
          /\ (forall m, occurs_at (lit "> >") (decorated nested) m ->
              (length pre <= m)%nat)
          /\ type_name nested = Some (pre ++ lit ">>" ++ post))
      \/ ((forall m, ~ occurs_at (lit "> >") (decorated nested) m)
          /\ type_name nested = Some (decorated nested)))
  /\ replace (lit "a-b-c") (lit "-") (lit "+") = Some (lit "a+b-c")
  /\ type_name nested = Some (lit "A<B<C<int>> >")
  /\ contains (lit "A<B<C<int>> >") (lit "> >") = true.
Proof.
  apply (replace_first_only (lit "a-b-c") (lit "-") (lit "+") nested);
    reflexivity.
Defined.

(* ================================================================= *)
(** ** [split], [join] and [contains] *)

Section Split_facts.
Implicit Types (text d pre post piece tail : chars) (pieces : list chars).

Lemma occurs_at_fits d text m :
  occurs_at d text m -> (m + length d <= length text)%nat.
Proof.
  intros (pre & post & -> & <-). rewrite !length_app. lia.
Qed.

Lemma occurs_at_app_l d pre rest m :
  occurs_at d pre m -> occurs_at d (pre ++ rest) m.
Proof.
  intros (a & b & -> & Ha). exists a, (b ++ rest).
  now rewrite <- !app_assoc.
Qed.

(** An occurrence that ends inside a prefix is an occurrence in it. *)
Lemma occurs_at_prefix d pre rest m :
  occurs_at d (pre ++ rest) m ->
  (m + length d <= length pre)%nat ->
  occurs_at d pre m.
Proof.
  intros (a & b & Heq & Ha) Hfits.
  exists a, (firstn (length pre - length a - length d) b).
  split; [|exact Ha].
  apply (f_equal (firstn (length pre))) in Heq.
  rewrite firstn_app, firstn_all, Nat.sub_diag, firstn_O, app_nil_r in Heq.
  rewrite Heq at 1. rewrite !firstn_app.
  rewrite (firstn_all2 a), (firstn_all2 d) by lia.
  reflexivity.
Qed.

Lemma string_find_first d pre post :
  (forall m, occurs_at d (pre ++ d ++ post) m -> (length pre <= m)%nat) ->
  string_find (pre ++ d ++ post) d = Z.of_nat (length pre).
Proof.
  intros Hleast. unfold string_find.
  destruct (find_from_lowest d (pre ++ d ++ post) 0)
    as [(n & Hn & Hlow & ->)|(Hnone & _)].
  - specialize (Hleast n Hn).
    assert (Hhere : occurs_at d (pre ++ d ++ post) (length pre))
      by now exists pre, post.
    specialize (Hlow _ Hhere). lia.
  - exfalso. apply (Hnone (length pre)). now exists pre, post.
Qed.

Lemma string_find_none d text :
  ~ occurs d text -> string_find text d = npos.
Proof.
  intros Hnone. unfold string_find.
  destruct (find_from_lowest d text 0) as [(n & Hn & _)|(_ & ->)];
    [|reflexivity].
  exfalso. apply Hnone. now exists n.
Qed.

(** One turn of the loop of [split]. *)
Lemma split_step {U} d pre post (func : chars -> U -> U) (u : U) fuel :
  Z.of_nat (length (pre ++ d ++ post)) < npos ->
  (forall m, occurs_at d (pre ++ d ++ post) m -> (length pre <= m)%nat) ->
  split (S fuel) (pre ++ d ++ post) d func u
  = split fuel post d func (func pre u).
Proof.
  intros Hsize Hleast. cbn [split].
  rewrite (string_find_first d pre post Hleast).
  change (to_size_t EOF) with npos.
  rewrite !length_app in Hsize.
  destruct (_ =? npos) eqn:Hnpos; [apply Z.eqb_eq in Hnpos; lia|].
  unfold string_substr, string_erase.
  destruct (_ <? 0) eqn:Hneg; [apply Z.ltb_lt in Hneg; lia|].
  unfold to_size_t. rewrite Z.mod_small by (unfold npos in Hsize; lia).
  change (Z.to_nat 0) with 0%nat. cbn [skipn firstn app Nat.add].
  rewrite Nat2Z.id.
  rewrite firstn_app, firstn_all, Nat.sub_diag, firstn_O, app_nil_r.
  replace (Z.to_nat (Z.of_nat (length pre) + Z.of_nat (length d)))
    with (length (pre ++ d)) by (rewrite length_app; lia).
  rewrite (app_assoc pre d post), skipn_app, skipn_all, Nat.sub_diag.
  reflexivity.
Qed.

Lemma split_last {U} d text (func : chars -> U -> U) (u : U) fuel :
  ~ occurs d text ->
  split (S fuel) text d func u
  = Done (Some (if negb (empty text) then func text u else u)).
Proof.
  intros Hnone. cbn [split]. rewrite (string_find_none d text Hnone).
  change (to_size_t EOF) with npos. now rewrite Z.eqb_refl.
Qed.

(** The first occurrence of [d] in [text], if any. *)
Lemma first_occurrence d text :
  (exists pre post,
      text = pre ++ d ++ post
      /\ forall m, occurs_at d text m -> (length pre <= m)%nat)
  \/ ~ occurs d text.
Proof.
  destruct (find_from_lowest d text 0)
    as [(n & (pre & post & Htext & Hpre) & Hlow & _)|(Hnone & _)].
  - left. exists pre, post. subst n. now split.
  - right. intros (n & Hn). now apply (Hnone n).
Qed.

(** What [split] does with a delimiter that is not empty: it returns,
    having handed [func] the stretches between delimiters in order, and
    then what is left after the last delimiter unless that is empty. *)
Lemma split_runs {U} d (func : chars -> U -> U) :
  d <> [] ->
  forall fuel text u,
    Z.of_nat (length text) < npos ->
    (length text < fuel)%nat ->
    exists pieces tail,
      split fuel text d func u
      = Done (Some (after_calls func
                      (pieces ++ if empty tail then [] else [tail]) u))
      /\ text = concat (map (fun piece => piece ++ d) pieces) ++ tail
      /\ ~ occurs d tail
      /\ Forall (ends_at_delimiter d) pieces.
Proof.
  intros Hd.
  induction fuel as [|fuel IH]; intros text u Hsize Hfuel; [lia|].
  destruct (first_occurrence d text)
    as [(pre & post & -> & Hleast)|Hnone].
  - rewrite (split_step d pre post func u fuel Hsize Hleast).
    rewrite !length_app in Hsize, Hfuel.
    assert (Hlen : (0 < length d)%nat) by (destruct d; simpl; [easy|lia]).
    destruct (IH post (func pre u)) as (pieces & tail & Hrun & Hpost & Htail
                                        & Hpieces); [lia|lia|].
    exists (pre :: pieces), tail. split; [exact Hrun|].
    split; [|split; [exact Htail|]].
    + cbn [map concat]. now rewrite Hpost, <- !app_assoc.
    + constructor; [|exact Hpieces].
      intros m Hm. apply Hleast.
      rewrite (app_assoc pre d post). now apply occurs_at_app_l.
  - rewrite (split_last d text func u fuel Hnone).
    exists [], text. split; [|now repeat split].
    cbn [app]. destruct text; reflexivity.
Qed.
End Split_facts.

Section Join_facts.
Implicit Types (text d piece tail : chars) (pieces : list chars).

Lemma join_snoc d pieces tail :
  join (pieces ++ [tail]) d
  = concat (map (fun piece => piece ++ d) pieces) ++ tail.
Proof.
  induction pieces as [|piece pieces IH]; [reflexivity|].
  change ((piece :: pieces) ++ [tail]) with (piece :: (pieces ++ [tail])).
  cbn [map concat]. rewrite <- !app_assoc, <- IH.
  destruct (pieces ++ [tail]) eqn:E; [now destruct pieces|reflexivity].
Qed.

Lemma join_all_delimited d pieces :
  pieces <> [] ->
  join pieces d ++ d = concat (map (fun piece => piece ++ d) pieces).
Proof.
  induction pieces as [|piece pieces IH]; intros Hsome; [easy|].
  cbn [join map concat]. destruct pieces as [|next pieces].
  - cbn [map concat]. now rewrite app_nil_r.
  - rewrite <- IH by discriminate. now rewrite <- !app_assoc.
Qed.

Lemma delimiter_not_inside d piece :
  d <> [] -> ends_at_delimiter d piece -> ~ occurs d piece.
Proof.
  intros Hd Hends (m & Hm).
  pose proof (occurs_at_fits _ _ _ Hm) as Hfits.
  specialize (Hends m (occurs_at_app_l d piece d m Hm)).
  destruct d; [easy|]. simpl in Hfits. lia.
Qed.

Lemma contains_iff_find text d :
  contains text d = negb (string_find text d =? npos).
Proof. reflexivity. Qed.

Lemma not_contains d text : ~ occurs d text -> contains text d = false.
Proof.
  intros Hnone. rewrite contains_iff_find, (string_find_none d text Hnone).
  reflexivity.
Qed.

(** [split] recovers a text from its stretches: the converse of
    [split_runs]. *)
Lemma split_of_stretches {U} d (func : chars -> U -> U) tail :
  d <> [] ->
  ~ occurs d tail ->
  forall pieces fuel u,
    Forall (ends_at_delimiter d) pieces ->
    let text := concat (map (fun piece => piece ++ d) pieces) ++ tail in
    Z.of_nat (length text) < npos ->
    (length text < fuel)%nat ->
    split fuel text d func u
    = Done (Some (after_calls func
                    (pieces ++ if empty tail then [] else [tail]) u)).
Proof.
  intros Hd Htail.
  assert (Hlen : (0 < length d)%nat) by (destruct d; simpl; [easy|lia]).
  induction pieces as [|piece pieces IH]; intros fuel u Hpieces text Hsize
    Hfuel; subst text; (destruct fuel as [|fuel]; [lia|]).
  - cbn [map concat app]. rewrite (split_last d tail func u fuel Htail).
    now destruct tail.
  - cbn [map concat app] in *. rewrite <- !app_assoc in *.
    inversion Hpieces as [|? ? Hpiece Hrest]; subst.
    rewrite split_step; [|exact Hsize|].
    + rewrite 2 length_app in Hsize. rewrite 2 length_app in Hfuel.
      rewrite IH; [reflexivity|exact Hrest|lia|lia].
    + intros m Hm. destruct (Nat.le_gt_cases (length piece) m) as [|Hlt];
        [assumption|].
      apply Hpiece. rewrite app_assoc in Hm.
      apply (occurs_at_prefix d (piece ++ d) _ m Hm).
      rewrite length_app. lia.
Qed.
End Join_facts.

(** X1.  With a delimiter that is not empty, [split] returns, and joining
    the pieces it handed out with the delimiter gives the text back, or the
    text short of one trailing delimiter. *)
Theorem split_then_join (text d : chars) (fuel : nat) :
  d <> [] ->
  Z.of_nat (length text) < npos ->
  (length text < fuel)%nat ->
  exists pieces,
    split fuel text d record [] = Done (Some pieces)
    /\ (text = join pieces d \/ text = join pieces d ++ d).
Proof.
  intros Hd Hsize Hfuel.
  destruct (split_runs d record Hd fuel text [] Hsize Hfuel)
    as (pieces & tail & Hrun & Htext & _).
  rewrite after_calls_record in Hrun. cbn [app] in Hrun.
  eexists. split; [exact Hrun|].
  destruct tail as [|ch tail]; cbn [empty].
  - rewrite app_nil_r in *. destruct pieces as [|piece pieces].
    + left. exact Htext.
    + right. now rewrite join_all_delimited.
  - left. now rewrite join_snoc.
Qed.

Lemma split_then_join_witness :
  exists pieces,
    split 8 (lit "a,b,,c,") (lit ",") record [] = Done (Some pieces)
    /\ (lit "a,b,,c," = join pieces (lit ",")
        \/ lit "a,b,,c," = join pieces (lit ",") ++ lit ",").
Proof.
  apply (split_then_join (lit "a,b,,c,") (lit ",") 8).
  - discriminate.
  - reflexivity.
  - simpl. lia.
Defined.

(** X2.  No piece that [split] hands out contains the delimiter:
    [contains(piece, d)] is false for each of them. *)
Theorem split_pieces_lack_delimiter (text d : chars) (fuel : nat) :
  d <> [] ->
  Z.of_nat (length text) < npos ->
  (length text < fuel)%nat ->
  exists pieces,
    split fuel text d record [] = Done (Some pieces)
    /\ Forall (fun piece => contains piece d = false) pieces.
Proof.
  intros Hd Hsize Hfuel.
  destruct (split_runs d record Hd fuel text [] Hsize Hfuel)
    as (pieces & tail & Hrun & _ & Htail & Hpieces).
  rewrite after_calls_record in Hrun. cbn [app] in Hrun.
  eexists. split; [exact Hrun|].
  apply Forall_app. split.
  - eapply Forall_impl; [|exact Hpieces].
    intros piece Hpiece. now apply not_contains, delimiter_not_inside.
  - destruct tail; cbn [empty]; constructor; [|constructor].
    now apply not_contains.
Qed.

Lemma split_pieces_lack_delimiter_witness :
  exists pieces,
    split 8 (lit "ab--c-d") (lit "--") record [] = Done (Some pieces)
    /\ Forall (fun piece => contains piece (lit "--") = false) pieces.
Proof.
  apply (split_pieces_lack_delimiter (lit "ab--c-d") (lit "--") 8).
  - discriminate.
  - reflexivity.
  - simpl. lia.
Defined.

(** X3.  With the empty delimiter [split] never returns, whatever the
    text: the search finds the empty delimiter at position 0, nothing is
    erased, and the loop starts over. *)
Theorem split_empty_delimiter_never_returns {U} (fuel : nat) (text : chars)
    (func : chars -> U -> U) (u : U) :
  split fuel text [] func u = OutOfFuel.
Proof.
  revert u. induction fuel as [|fuel IH]; intros u; [reflexivity|].
  cbn [split]. unfold string_find.
  replace (find_from 0 text []) with 0 by now destruct text.
  change (0 =? to_size_t EOF) with false. cbv iota.
  unfold string_substr, string_erase.
  destruct (_ <? 0) eqn:Hneg; [apply Z.ltb_lt in Hneg; lia|].
  change (to_size_t (0 + Z.of_nat (length (@nil ascii)))) with 0.
  change (Z.to_nat 0) with 0%nat. cbn [firstn skipn app Nat.add].
  apply IH.
Qed.

(** X4.  Splitting what [join] built gives the pieces back, provided the
    delimiter is not empty, is not met early in any piece followed by the
    delimiter, does not occur in the last piece, and the last piece is not
    empty. *)
Theorem join_then_split (init : list chars) (final d : chars) (fuel : nat) :
  d <> [] ->
  Forall (ends_at_delimiter d) init ->
  ~ occurs d final ->
  final <> [] ->
  Z.of_nat (length (join (init ++ [final]) d)) < npos ->
  (length (join (init ++ [final]) d) < fuel)%nat ->
  split fuel (join (init ++ [final]) d) d record []
  = Done (Some (init ++ [final])).
Proof.
  intros Hd Hinit Hfinal Hsome Hsize Hfuel.
  rewrite join_snoc in *.
  rewrite (split_of_stretches d record final Hd Hfinal init fuel [] Hinit
             Hsize Hfuel).
  rewrite after_calls_record. now destruct final.
Qed.

Lemma ends_at_comma_a : ends_at_delimiter (lit ",") (lit "a").
Proof.
  intros [|m] Hm; [|simpl; lia].
  apply occurs_at_start in Hm. discriminate.
Qed.

Lemma join_then_split_witness :
  split 5 (join ([lit "a"; []] ++ [lit "b"]) (lit ",")) (lit ",") record []
  = Done (Some ([lit "a"; []] ++ [lit "b"])).
Proof.
  apply (join_then_split [lit "a"; []] (lit "b") (lit ",") 5).
  - discriminate.
  - repeat constructor; [exact ends_at_comma_a|].
    intros m _. simpl. lia.
  - intros ([|[|m]] & Hm).
    + apply occurs_at_start in Hm. discriminate.
    + apply occurs_at_fits in Hm. simpl in Hm. lia.
    + apply occurs_at_fits in Hm. simpl in Hm. lia.
  - discriminate.
  - reflexivity.
  - simpl. lia.
Defined.



(* ================================================================= *)
(** ** [rtrim] *)

Section Rtrim_facts.
Variable isspace : ascii -> bool.
Implicit Types (str keep ws : chars).

Lemma find_if_skips {A} (p : A -> bool) (skipped rest : list A) :
  (forall a, In a skipped -> p a = false) ->
  find_if p (skipped ++ rest) = (length skipped + find_if p rest)%nat.
Proof.
  induction skipped as [|a skipped IH]; intros Hskip; [reflexivity|].
  cbn [app find_if length]. rewrite (Hskip a) by now left.
  rewrite IH; [reflexivity|]. intros b Hb. apply Hskip. now right.
Qed.

Lemma find_if_trimmed keep :
  trimmed isspace keep ->
  find_if (fun ch => negb (isspace ch)) (rev keep) = 0%nat.
Proof.
  intros Hkeep. destruct keep as [|ch0 keep0] using rev_ind; [reflexivity|].
  rewrite rev_app_distr. cbn [rev app find_if].
  now rewrite (Hkeep keep0 ch0 eq_refl).
Qed.

(** [rtrim] cuts a string where its trailing whitespace starts. *)
Lemma rtrim_cuts keep ws :
  forallb isspace ws = true ->
  trimmed isspace keep ->
  rtrim isspace (keep ++ ws) = keep.
Proof.
  intros Hws Hkeep. unfold rtrim.
  destruct (empty (keep ++ ws)) eqn:Hempty.
  - destruct keep; [|discriminate]. now destruct ws.
  - rewrite rev_app_distr, find_if_skips, find_if_trimmed by
      (try exact Hkeep; intros ch Hch; apply in_rev in Hch;
       rewrite forallb_forall in Hws; now rewrite (Hws ch Hch)).
    unfold erase_range, end_, size.
    rewrite length_rev, length_app, Nat.add_0_r.
    replace (Z.to_nat (Z.of_nat (length keep + length ws)
                       - Z.of_nat (length ws)))
      with (length keep) by lia.
    rewrite Nat2Z.id, <- length_app, skipn_all, app_nil_r.
    now rewrite firstn_app, firstn_all, Nat.sub_diag, firstn_O, app_nil_r.
Qed.

(** Every string is a trimmed string followed by whitespace. *)
Lemma trailing_whitespace str :
  exists keep ws,
    str = keep ++ ws /\ forallb isspace ws = true /\ trimmed isspace keep.
Proof.
  induction str as [|ch str IH] using rev_ind.
  - exists [], []. repeat split. intros keep ch Hnil. now destruct keep.
  - destruct (isspace ch) eqn:Hch.
    + destruct IH as (keep & ws & -> & Hws & Hkeep).
      exists keep, (ws ++ [ch]). rewrite app_assoc. repeat split; auto.
      rewrite forallb_app, Hws. cbn. now rewrite Hch.
    + exists (str ++ [ch]), []. rewrite app_nil_r. repeat split.
      intros keep ch' Heq. apply app_inj_tail in Heq.
      now destruct Heq as (_ & <-).
Qed.
End Rtrim_facts.

(** X6.  [rtrim] removes a run of whitespace from the end and nothing
    else, and what it leaves is empty or ends in a character that is not
    whitespace. *)
Theorem rtrim_removes_trailing_whitespace (isspace : ascii -> bool)
    (str : chars) :
  exists ws,
    str = rtrim isspace str ++ ws
    /\ forallb isspace ws = true
    /\ trimmed isspace (rtrim isspace str).
Proof.
  destruct (trailing_whitespace isspace str) as (keep & ws & -> & Hws & Hkeep).
  rewrite (rtrim_cuts isspace keep ws Hws Hkeep). now exists ws.
Qed.

(** X7.  Trimming a second time changes nothing. *)
Theorem rtrim_idempotent (isspace : ascii -> bool) (str : chars) :
  rtrim isspace (rtrim isspace str) = rtrim isspace str.
Proof.
  destruct (trailing_whitespace isspace str) as (keep & ws & -> & Hws & Hkeep).
  rewrite (rtrim_cuts isspace keep ws Hws Hkeep).
  rewrite <- (app_nil_r keep) at 1. now apply rtrim_cuts.
Qed.

(** X8.  [rtrim] removes all the trailing whitespace: whenever a string is
    some text that is empty or ends in a character that is not whitespace,
    followed by whitespace only, [rtrim] leaves exactly that text; so a
    string without trailing whitespace is left alone and a string of
    whitespace becomes empty. *)
Theorem rtrim_leaves_the_text (isspace : ascii -> bool) (keep ws : chars) :
  forallb isspace ws = true ->
  trimmed isspace keep ->
  rtrim isspace (keep ++ ws) = keep
  /\ rtrim isspace keep = keep
  /\ rtrim isspace ws = [].
Proof.
  intros Hws Hkeep. split; [now apply rtrim_cuts|]. split.
  - rewrite <- (app_nil_r keep) at 1. now apply rtrim_cuts.
  - apply (rtrim_cuts isspace [] ws Hws). intros k ch Hnil. now destruct k.
Qed.

Lemma rtrim_leaves_the_text_witness :
  rtrim isspace_C (lit "a b" ++ [" "; "009"; "010"]%char) = lit "a b"
  /\ rtrim isspace_C (lit "a b") = lit "a b"
  /\ rtrim isspace_C [" "; "009"; "010"]%char = [].
Proof.
  apply (rtrim_leaves_the_text isspace_C (lit "a b")
           [" "; "009"; "010"]%char).
  - reflexivity.
  - intros keep ch Heq. apply (f_equal (@rev ascii)) in Heq.
    rewrite rev_app_distr in Heq. injection Heq as <- _. reflexivity.
Defined.

(* ================================================================= *)
(** ** More on [contains] and [replace] *)

Lemma contains_decides (text needle : chars) :
  Z.of_nat (length text) < npos ->
  contains text needle = true <-> occurs needle text.
Proof.
  intros Hsize. rewrite contains_iff_find. unfold string_find.
  destruct (find_from_lowest needle text 0)
    as [(n & Hn & _ & ->)|(Hnone & ->)].
  - pose proof (occurs_at_fits _ _ _ Hn) as Hfits.
    destruct (_ =? npos) eqn:Hnpos; [apply Z.eqb_eq in Hnpos; lia|].
    split; [intros _; now exists n|reflexivity].
  - rewrite Z.eqb_refl. split; [discriminate|].
    intros (n & Hn). now destruct (Hnone n).
Qed.

(** X9.  For a text of a size a string can have, [contains] answers
    whether the needle occurs in the text; the empty needle always does. *)
Theorem contains_iff_occurs (text needle : chars) :
  Z.of_nat (length text) < npos ->
  (contains text needle = true <-> occurs needle text)
  /\ contains text [] = true.
Proof.
  intros Hsize. split; [now apply contains_decides|].
  rewrite contains_iff_find. unfold string_find. now destruct text.
Qed.

Lemma contains_iff_occurs_witness :
  (contains (lit "a<b> >") (lit "> >") = true
   <-> occurs (lit "> >") (lit "a<b> >"))
  /\ contains (lit "a<b> >") [] = true.
Proof.
  apply (contains_iff_occurs (lit "a<b> >") (lit "> >")). reflexivity.
Defined.

(** X10.  [replace] does not throw; when [contains(text, from)] holds the
    text changes in length by the difference between [to] and [from], and
    when it does not hold the text stays as it is. *)
Theorem replace_changes_length (text from to : chars) :
  Z.of_nat (length text) < npos ->
  exists result,
    replace text from to = Some result
    /\ (contains text from = true ->
        (length result + length from = length text + length to)%nat)
    /\ (contains text from = false -> result = text).
Proof.
  intros Hsize.
  destruct (replace_runs text from to Hsize)
    as [(pre & post & Htext & _ & Hrun)|(Hnone & Hrun)];
    rewrite Hrun; eexists; (split; [reflexivity|]); split.
  - intros _. rewrite Htext, !length_app. lia.
  - intros Hnot.
    assert (Hocc : contains text from = true).
    { apply (contains_decides text from Hsize).
      exists (length pre). now exists pre, post. }
    congruence.
  - intros Hocc. apply (contains_decides text from Hsize) in Hocc.
    destruct Hocc as (n & Hn). now destruct (Hnone n).
  - reflexivity.
Qed.

Lemma replace_changes_length_witness :
  exists result,
    replace (lit "a> > b") (lit "> >") (lit ">>") = Some result
    /\ (contains (lit "a> > b") (lit "> >") = true ->
        (length result + length (lit "> >")
         = length (lit "a> > b") + length (lit ">>"))%nat)
    /\ (contains (lit "a> > b") (lit "> >") = false ->
        result = lit "a> > b").
Proof.
  apply (replace_changes_length (lit "a> > b") (lit "> >") (lit ">>")).
  reflexivity.
Defined.

(* ================================================================= *)
(** ** How the combinators compose *)

Lemma fold_ignoring_positions {A S} (f : A -> S -> S) (cont : list A) :
  forall (ps : list Z) (s : S),
    length ps = length cont ->
    fold_left (fun s' (ai : A * Z) => f (fst ai) s') (combine cont ps) s
    = fold_left (fun s' a => f a s') cont s.
Proof.
  induction cont as [|a cont IH]; intros ps s Hlen; [reflexivity|].
  destruct ps as [|i ps]; [discriminate|]. simpl.
  apply IH. simpl in Hlen. lia.
Qed.

Lemma filter_keeps_all {A} (k : A -> bool) (c : list A) :
  (forall a, In a c -> k a = true) -> filter k c = c.
Proof.
  induction c as [|a c IH]; intros Hall; [reflexivity|].
  simpl. rewrite (Hall a) by now left.
  rewrite IH; [reflexivity|]. intros b Hb. apply Hall. now right.
Qed.

Lemma filter_swap {A} (k k' : A -> bool) (c : list A) :
  filter k (filter k' c) = filter k' (filter k c).
Proof.
  induction c as [|a c IH]; [reflexivity|].
  simpl. destruct (k a) eqn:Hk, (k' a) eqn:Hk'; simpl;
    rewrite ?Hk, ?Hk', IH; reflexivity.
Qed.

(** X11.  [each] works on a copy of the container: whatever the visitor
    does, to the caller's container too, [each] returns after applying it
    to each element the container held at the call, in order. *)
Theorem each_visits_the_copy {A U} (func : A -> env A U -> env A U)
    (e : env A U) (fuel : nat) :
  (length (store e) < fuel)%nat ->
  each fuel (store e) func e
  = Done (fold_left (fun e' a => func a e') (store e) e).
Proof.
  intros Hfuel. unfold each, begin.
  apply (each_loop_runs func (store e) [] fuel e Hfuel).
Qed.

Lemma each_visits_the_copy_witness :
  each 4 [1; 2; 3] (fun a e => Env [] (user e ++ [a])) (Env [1; 2; 3] [])
  = Done (Env [] [1; 2; 3]).
Proof.
  apply (each_visits_the_copy (fun a e => Env [] (user e ++ [a]))
           (Env [1; 2; 3] []) 4).
  simpl. lia.
Defined.

(** X12.  The indexed overload of [each] visits what the plain one
    visits: with a visitor that ignores the position the two return the
    same, for a container of any size. *)
Theorem each_overloads_agree {A U} (func : A -> env A U -> env A U)
    (cont : list A) (e : env A U) (fuel : nat) :
  (length cont < fuel)%nat ->
  each_indexed fuel cont (fun a _ => func a) e = each fuel cont func e.
Proof.
  intros Hfuel.
  rewrite each_indexed_runs, each_runs by exact Hfuel. f_equal.
  apply (fold_ignoring_positions func cont). apply positions_length.
Qed.

Lemma each_overloads_agree_witness :
  each_indexed 4 [1; 2; 3] (fun a _ => visitor record a) (Env [1; 2; 3] [])
  = each 4 [1; 2; 3] (visitor record) (Env [1; 2; 3] []).
Proof.
  apply (each_overloads_agree (visitor record) [1; 2; 3]
           (Env [1; 2; 3] []) 4).
  simpl. lia.
Defined.

(** X13.  [until] and [find] agree: on the same container and predicate
    [until] returns true exactly when [find] returns an element, and both
    have called the predicate on the same elements. *)
Theorem until_agrees_with_find {A U} (p : A -> bool) (g : A -> U -> U)
    (c : list A) (u : U) (fuel : nat) :
  (length c < fuel)%nat ->
  exists b r e',
    until fuel c (predicate p g) (Env c u) = Done (b, e')
    /\ find fuel (predicate p g) (Env c u) = Done (r, e')
    /\ (b = true <-> exists a, r = Some a).
Proof.
  intros Hfuel. unfold until, find, begin.
  destruct (until_loop_runs p g c [] fuel (Env c u) Hfuel)
    as [(i & a & Hfirst & Huntil)|(Hnone & Huntil)];
    destruct (find_loop_runs p g c [] fuel (Env c u) eq_refl Hfuel)
    as [(j & b & Hfirst' & Hfind)|(Hnone' & Hfind)];
    simpl in Huntil, Hfind; rewrite Huntil, Hfind.
  - assert (Hij : i = j).
    { destruct Hfirst as (Hi & Hpa & Hbefore).
      destruct Hfirst' as (Hj & Hpb & Hbefore').
      destruct (Nat.lt_trichotomy i j) as [Hlt|[Heq|Hgt]]; [|exact Heq|].
      - rewrite (Hbefore' i a Hlt Hi) in Hpa. discriminate.
      - rewrite (Hbefore j b Hgt Hj) in Hpb. discriminate. }
    subst j. eexists _, _, _. repeat split. intros _. now exists b.
  - now apply first_at_not_none in Hfirst.
  - now apply first_at_not_none in Hfirst'.
  - eexists _, _, _. repeat split; [discriminate|].
    intros (a & Ha). discriminate.
Qed.

Lemma until_agrees_with_find_witness :
  exists b r e',
    until 5 [1; 3; 4; 6] (predicate Z.even record) (Env [1; 3; 4; 6] [])
    = Done (b, e')
    /\ find 5 (predicate Z.even record) (Env [1; 3; 4; 6] []) = Done (r, e')
    /\ (b = true <-> exists a, r = Some a).
Proof.
  apply (until_agrees_with_find Z.even record [1; 3; 4; 6] [] 5).
  simpl. lia.
Defined.

(** X14.  After [remove(c, p)] nothing is left to find: [find(c, p)]
    returns nothing and [until(c, p)] returns false. *)
Theorem nothing_left_after_remove {A} (p : A -> bool) (c : list A)
    (fuel : nat) :
  (length c < fuel)%nat ->
  exists e2 log e3 e4,
    remove_if fuel (predicate p (fun _ u => u)) (Env c tt) = Done (e2, log)
    /\ find fuel (predicate p (fun _ u => u)) e2 = Done (None, e3)
    /\ until fuel (store e2) (predicate p (fun _ u => u)) e2
       = Done (false, e4).
Proof.
  intros Hfuel.
  destruct (remove_if_runs p (fun _ (u : unit) => u) c tt fuel Hfuel)
    as (log & Hrun & _).
  pose proof (filter_shorter (fun a => negb (p a)) c) as Hshort.
  assert (Hnone : forall i a,
             ~ first_at p (filter (fun a => negb (p a)) c) i a).
  { intros i a (Hnth & Hp & _). apply nth_error_In, filter_In in Hnth.
    destruct Hnth as (_ & Hkept). rewrite Hp in Hkept. discriminate. }
  rewrite after_calls_idle in Hrun.
  set (e2 := Env (filter (fun a => negb (p a)) c) tt) in *.
  destruct (find_loop_runs p (fun _ (u : unit) => u) (store e2) [] fuel e2
              eq_refl) as [(i & a & Hfirst & _)|(_ & Hfind)];
    [simpl; lia|now destruct (Hnone i a)|].
  destruct (until_loop_runs p (fun _ (u : unit) => u) (store e2) [] fuel e2)
    as [(i & a & Hfirst & _)|(_ & Huntil)];
    [simpl; lia|now destruct (Hnone i a)|].
  eexists e2, log, _, _. split; [exact Hrun|].
  split; [exact Hfind|exact Huntil].
Qed.

Lemma nothing_left_after_remove_witness :
  exists e2 log e3 e4,
    remove_if 5 (predicate Z.even (fun _ u => u)) (Env [2; 1; 4; 3] tt)
    = Done (e2, log)
    /\ find 5 (predicate Z.even (fun _ u => u)) e2 = Done (None, e3)
    /\ until 5 (store e2) (predicate Z.even (fun _ u => u)) e2
       = Done (false, e4).
Proof.
  apply (nothing_left_after_remove Z.even [2; 1; 4; 3] 5). simpl. lia.
Defined.

(** X15.  Removing a value the container does not hold changes nothing,
    and the iterator stays within the container throughout. *)
Theorem remove_absent_changes_nothing {A U} `{Comparable A} (x : A)
    (c : list A) (u : U) (fuel : nat) :
  ~ In x c ->
  (length c < fuel)%nat ->
  exists log,
    remove fuel x (Env c u) = Done (Env c u, log)
    /\ all_in_bounds log = true.
Proof.
  intros Habsent Hfuel.
  destruct (remove_runs x c u fuel Hfuel) as (log & Hrun & Hsafe & _).
  assert (Hall : forall a, In a c -> differs a x = true).
  { intros a Ha. apply differs_true. intros ->. contradiction. }
  rewrite (filter_keeps_all _ c Hall) in Hrun.
  exists log. split; [exact Hrun|]. rewrite Hsafe.
  destruct c as [|a c]; [reflexivity|]. apply Hall. now left.
Qed.

Lemma remove_absent_changes_nothing_witness :
  exists log,
    remove 4 7 (Env [1; 2; 3] tt) = Done (Env [1; 2; 3] tt, log)
    /\ all_in_bounds log = true.
Proof.
  apply (remove_absent_changes_nothing 7 [1; 2; 3] tt 4).
  - intros [H|[H|[H|[]]]]; discriminate.
  - simpl. lia.
Defined.

(** X16.  The two overloads of [remove] agree: removing the value [x]
    leaves what removing by the predicate "is equal to [x]" leaves. *)
Theorem remove_overloads_agree {A U} `{Comparable A} (x : A) (c : list A)
    (u : U) (fuel : nat) :
  (length c < fuel)%nat ->
  exists kept,
    final_store (remove fuel x (Env c u)) = Some kept
    /\ final_store
         (remove_if fuel
            (predicate (fun a => negb (differs a x)) (fun _ u' => u'))
            (Env c u))
       = Some kept.
Proof.
  intros Hfuel.
  destruct (remove_runs x c u fuel Hfuel) as (log & Hrun & _).
  destruct (remove_if_runs (fun a => negb (differs a x)) (fun _ (u' : U) => u')
              c u fuel Hfuel) as (log' & Hrun' & _).
  rewrite Hrun, Hrun'. eexists. split; [reflexivity|]. cbn [final_store store].
  f_equal. apply filter_ext. intros a. now rewrite negb_involutive.
Qed.

Lemma remove_overloads_agree_witness :
  exists kept,
    final_store (remove 5 7 (Env [7; 8; 7; 9] tt)) = Some kept
    /\ final_store
         (remove_if 5
            (predicate (fun a => negb (differs a 7)) (fun _ u' => u'))
            (Env [7; 8; 7; 9] tt))
       = Some kept.
Proof.
  apply (remove_overloads_agree 7 [7; 8; 7; 9] tt 5). simpl. lia.
Defined.

(** X17.  The order of two removals does not matter: removing [x] and
    then [y] leaves the container that removing [y] and then [x]
    leaves. *)
Theorem remove_commutes {A U} `{Comparable A} (x y : A) (c : list A) (u : U)
    (fuel : nat) :
  (length c < fuel)%nat ->
  exists cx cy c',
    final_store (remove fuel x (Env c u)) = Some cx
    /\ final_store (remove fuel y (Env cx u)) = Some c'
    /\ final_store (remove fuel y (Env c u)) = Some cy
    /\ final_store (remove fuel x (Env cy u)) = Some c'.
Proof.
  intros Hfuel.
  pose proof (filter_shorter (fun a => differs a x) c) as Hx.
  pose proof (filter_shorter (fun a => differs a y) c) as Hy.
  destruct (remove_runs x c u fuel Hfuel) as (l0 & H0 & _).
  destruct (remove_runs y (filter (fun a => differs a x) c) u fuel)
    as (l1 & H1 & _); [lia|].
  destruct (remove_runs y c u fuel Hfuel) as (l2 & H2 & _).
  destruct (remove_runs x (filter (fun a => differs a y) c) u fuel)
    as (l3 & H3 & _); [lia|].
  rewrite filter_swap in H3.
  eexists _, _, _. rewrite H0, H1, H2, H3. now repeat split.
Qed.

Lemma remove_commutes_witness :
  exists cx cy c',
    final_store (remove 5 7 (Env [7; 8; 7; 9] tt)) = Some cx
    /\ final_store (remove 5 8 (Env cx tt)) = Some c'
    /\ final_store (remove 5 8 (Env [7; 8; 7; 9] tt)) = Some cy
    /\ final_store (remove 5 7 (Env cy tt)) = Some c'.
Proof.
  apply (remove_commutes 7 8 [7; 8; 7; 9] tt 5). simpl. lia.
Defined.

Lemma remove_in_range_iff_witness :
  (exists e' log,
      remove 4 7 (Env [1; 7; 7] (@nil Z)) = Done (e', log)
      /\ (all_in_bounds log = true <-> hd_error [1; 7; 7] <> Some 7))
  /\ (exists e' log,
        remove_if 4 (predicate Z.even record) (Env [1; 7; 7] [])
        = Done (e', log)
        /\ (all_in_bounds log = true
            <-> forall a, hd_error [1; 7; 7] = Some a -> Z.even a = false)).
Proof.
  apply (remove_in_range_iff 7 Z.even record [1; 7; 7] [] 4). simpl. lia.
Defined.

(* ================================================================= *)
(** ** More on [type_name] *)

Lemma occurrence_holds_its_characters (needle text : chars) (ch : ascii) :
  occurs needle text -> In ch needle -> In ch text.
Proof.
  intros (n & pre & post & -> & _) Hch.
  apply in_or_app. right. apply in_or_app. now left.
Qed.

(** X19.  For a type whose name holds no closing angle bracket,
    [type_name] returns the demangled name (the mangled one when
    demangling fails) followed by [" const"], [" volatile"] and the
    reference sign, in this order, each only when it applies. *)
Theorem type_name_without_brackets (T : type_facts) :
  ~ In ">"%char (match demangled T with
                 | Some own => own
                 | None => mangled T
                 end) ->
  type_name T
  = Some ((match demangled T with Some own => own | None => mangled T end)
          ++ (if is_const T then lit " const" else [])
          ++ (if is_volatile T then lit " volatile" else [])
          ++ match reference T with
             | NotRef => []
             | LvalueRef => lit "&"
             | RvalueRef => lit "&&"
             end).
Proof.
  intros Hname. unfold type_name, replace.
  assert (Hsame : decorated T
                  = (match demangled T with
                     | Some own => own
                     | None => mangled T
                     end)
                    ++ (if is_const T then lit " const" else [])
                    ++ (if is_volatile T then lit " volatile" else [])
                    ++ match reference T with
                       | NotRef => []
                       | LvalueRef => lit "&"
                       | RvalueRef => lit "&&"
                       end).
  { unfold decorated.
    destruct (is_const T), (is_volatile T), (reference T);
      rewrite ?app_nil_l, ?app_nil_r, <- ?app_assoc; reflexivity. }
  rewrite string_find_none; [now rewrite <- Hsame|].
  intros Hocc.
  apply (occurrence_holds_its_characters _ _ ">"%char) in Hocc;
    [|now left].
  rewrite Hsame in Hocc. apply in_app_or in Hocc.
  destruct Hocc as [Hocc|Hocc]; [contradiction|].
  destruct (is_const T), (is_volatile T), (reference T);
    cbn in Hocc; intuition discriminate.
Qed.

Lemma type_name_without_brackets_witness :
  type_name (TypeFacts (lit "i") (Some (lit "int")) true false LvalueRef)
  = Some (lit "int const&").
Proof.
  apply (type_name_without_brackets
           (TypeFacts (lit "i") (Some (lit "int")) true false LvalueRef)).
  cbn. intuition discriminate.
Defined.
